(** * fastapi_auditor: route extraction and maturity scoring

    A shallow embedding of the core of [fastapi_auditor.py]: the argument
    delimiting scan and field extraction of [analyze_routes], the helpers
    [extract_string_arg] and [has_kwarg], the rubric of [score_route] and the
    guard of [analyze_command].

    Python [str] values are lists of Unicode code points.  The directory
    walk and the decorator matches of [ROUTE_PATTERN.finditer] are inputs of
    the model: a decoration site is given by the offset [match.end()] and the
    text [match.group(1).upper()]. *)

From Stdlib Require Import List ZArith NArith Bool Lia String Ascii Sorted.
From Stdlib Require SpecFloat.
Import ListNotations.

Set Implicit Arguments.

(** ** Python strings *)

Definition char := N.
Definition str := list char.

Definition ch (a : ascii) : char := N_of_ascii a.

(** A literal of the source, as a list of code points. *)
Definition lit (s : string) : str := map N_of_ascii (list_ascii_of_string s).

Definition dquote : char := 34%N.
Definition squote : char := 39%N.
Definition lparen : char := 40%N.
Definition rparen : char := 41%N.
Definition equals : char := 61%N.
Definition slash : char := 47%N.

Definition is_char (a c : char) : bool := N.eqb a c.

(** [str.isspace] on one code point, which is also what [\s] matches in a
    [str] pattern and what [str.strip()] removes. *)
Definition isspace (c : char) : bool :=
  ((9 <=? c) && (c <=? 13) || (28 <=? c) && (c <=? 32)
   || (c =? 133) || (c =? 160) || (c =? 5760)
   || (8192 <=? c) && (c <=? 8202)
   || (c =? 8232) || (c =? 8233) || (c =? 8239) || (c =? 8287)
   || (c =? 12288))%N.

(** The class of the two quote characters (double and single) and its
    complement. *)
Definition isquote (c : char) : bool := is_char dquote c || is_char squote c.
Definition notquote (c : char) : bool := negb (isquote c).

(** The literal [v] under [re.IGNORECASE]: the code points whose lower case
    is [v]. *)
Definition ci_v (c : char) : bool := is_char (ch "v") c || is_char (ch "V") c.

Definition len (s : str) : Z := Z.of_nat (List.length s).

Fixpoint dropwhile (p : char -> bool) (s : str) : str :=
  match s with
  | c :: s' => if p c then dropwhile p s' else s
  | [] => []
  end.

Definition lstrip (s : str) : str := dropwhile isspace s.
Definition rstrip (s : str) : str := rev (dropwhile isspace (rev s)).

(** [s.strip()] *)
Definition strip (s : str) : str := rstrip (lstrip s).

(** [s[i]]; [None] stands for IndexError. *)
Definition py_index (s : str) (i : Z) : option char :=
  if ((0 <=? i) && (i <? len s))%Z then nth_error s (Z.to_nat i)
  else if ((- len s <=? i) && (i <? 0))%Z then nth_error s (Z.to_nat (i + len s))
  else None.

(** A slice bound, as Python normalises it. *)
Definition slice_bound (s : str) (x : Z) : Z :=
  if (x <? 0)%Z then Z.max 0 (x + len s) else Z.min x (len s).

(** [s[a:b]] *)
Definition py_slice (s : str) (a b : Z) : str :=
  let a' := slice_bound s a in
  let b' := slice_bound s b in
  firstn (Z.to_nat (b' - a')) (skipn (Z.to_nat a') s).

Fixpoint str_eqb (a b : str) : bool :=
  match a, b with
  | [], [] => true
  | x :: a', y :: b' => N.eqb x y && str_eqb a' b'
  | _, _ => false
  end.

(** ** The fragment of [re] the auditor uses

    Literals, character classes, greedy repetition of a class, and
    sequencing.  Matching is by backtracking with continuations, longest
    repetition first, as the [re] module does. *)

Inductive regex : Type :=
| Lit (w : str)
| Chr (p : char -> bool)
| Star (p : char -> bool)
| Plus (p : char -> bool)
| Seq (r1 r2 : regex).

Fixpoint strip_prefix (w s : str) : option str :=
  match w, s with
  | [], _ => Some s
  | a :: w', b :: s' => if N.eqb a b then strip_prefix w' s' else None
  | _ :: _, [] => None
  end.

(** [p*] against [s]: the continuation gets the consumed word and the rest,
    longest word first. *)
Fixpoint greedy (A : Type) (p : char -> bool) (s : str)
         (k : str -> str -> option A) : option A :=
  match s with
  | c :: s' =>
      if p c then
        match greedy p s' (fun w rest => k (c :: w) rest) with
        | Some a => Some a
        | None => k [] s
        end
      else k [] s
  | [] => k [] s
  end.

Fixpoint rmatch (A : Type) (r : regex) (s : str)
         (k : str -> str -> option A) : option A :=
  match r with
  | Lit w =>
      match strip_prefix w s with
      | Some s' => k w s'
      | None => None
      end
  | Chr p =>
      match s with
      | c :: s' => if p c then k [c] s' else None
      | [] => None
      end
  | Star p => greedy p s k
  | Plus p =>
      match s with
      | c :: s' => if p c then greedy p s' (fun w rest => k (c :: w) rest) else None
      | [] => None
      end
  | Seq r1 r2 =>
      rmatch r1 s (fun w1 s1 => rmatch r2 s1 (fun w2 s2 => k (w1 ++ w2) s2))
  end.

(** The first offset of [s], from the left, at which [m] succeeds. *)
Fixpoint search (A : Type) (m : str -> option A) (s : str) : option A :=
  match m s with
  | Some a => Some a
  | None =>
      match s with
      | [] => None
      | _ :: s' => search m s'
      end
  end.

(** [re.search(r, s)], giving the matched text. *)
Definition re_search (r : regex) (s : str) : option str :=
  search (fun t => rmatch r t (fun w _ => Some w)) s.

(** One attempt of the pattern [before(grp)after] at the start of [s],
    giving [group(1)]. *)
Definition match_group (before grp after : regex) (s : str) : option str :=
  rmatch before s (fun _ s1 =>
    rmatch grp s1 (fun v s2 =>
      rmatch after s2 (fun _ _ => Some v))).

(** [re.search(before(grp)after, s)], giving [group(1)]. *)
Definition re_search_group (before grp after : regex) (s : str) : option str :=
  search (match_group before grp after) s.

(** The same for a pattern that starts with [^] (no [re.MULTILINE]): the
    only offset tried is 0. *)
Definition re_search_group_bos (before grp after : regex) (s : str) : option str :=
  match_group before grp after s.

(** ** Results of code that may raise *)

Inductive result (A : Type) : Type :=
| Ok (a : A)
| Raised
| OutOfFuel.

Arguments Raised {A}.
Arguments OutOfFuel {A}.

Fixpoint collect (A B : Type) (f : A -> result B) (l : list A) : result (list B) :=
  match l with
  | [] => Ok []
  | x :: l' =>
      match f x with
      | Ok y =>
          match collect f l' with
          | Ok ys => Ok (y :: ys)
          | Raised => Raised
          | OutOfFuel => OutOfFuel
          end
      | Raised => Raised
      | OutOfFuel => OutOfFuel
      end
  end.

(** ** Extraction *)

(** The dictionary [analyze_routes] appends for one decoration site. *)
Record route : Type := {
  method : str;
  path : str;
  file : str;
  versioned : bool;
  has_response_model : bool;
  has_tags : bool;
  has_summary : bool;
  has_description : bool;
  decorator_args : str
}.

(** One match of [ROUTE_PATTERN]: [match.end()] and
    [match.group(1).upper()]. *)
Record site : Type := {
  site_end : Z;
  site_method : str
}.

(** One [.py] file of the walk: its path relative to the root, its text and
    the matches of [ROUTE_PATTERN.finditer] in it, left to right. *)
Record source_file : Type := {
  rel_path : str;
  content : str;
  sites : list site
}.

(** The part of the pattern of [extract_string_arg] before its group: the
    keyword, [\s*], [=], [\s*] and an opening quote of either kind.
    [keyword] is one of the plain names the callers pass, so it stands for
    itself. *)
Definition kwarg_opening (keyword : str) : regex :=
  Seq (Lit keyword)
      (Seq (Star isspace)
           (Seq (Chr (is_char equals))
                (Seq (Star isspace) (Chr isquote)))).

(** The part of the fallback pattern before its group: [^], [\s*] and an
    opening quote of either kind. *)
Definition bare_opening : regex := Seq (Star isspace) (Chr isquote).

Definition extract_string_arg (arg_str keyword : str) : option str :=
  match re_search_group (kwarg_opening keyword) (Plus notquote) (Chr isquote) arg_str with
  | Some v => Some v
  | None =>
      if str_eqb keyword (lit "path") then
        match re_search_group_bos bare_opening (Plus notquote) (Chr isquote) arg_str with
        | Some v => Some v
        | None => None
        end
      else None
  end.

(** The pattern of [has_kwarg]: the keyword, [\s*] and [=]. *)
Definition kwarg_pattern (keyword : str) : regex :=
  Seq (Lit keyword) (Seq (Star isspace) (Chr (is_char equals))).

Definition has_kwarg (arg_str keyword : str) : bool :=
  match re_search (kwarg_pattern keyword) arg_str with
  | Some _ => true
  | None => false
  end.

(** The [while] loop of [analyze_routes]: from offset [i] at depth
    [paren_depth], to the offset and depth at which the loop ends. *)
Fixpoint scan_parens (fuel : nat) (content : str) (i paren_depth : Z)
  : result (Z * Z) :=
  if ((i <? len content) && (paren_depth >? 0))%Z then
    match fuel with
    | O => OutOfFuel
    | S fuel' =>
        match py_index content i with
        | None => Raised
        | Some c =>
            let paren_depth :=
              if is_char lparen c then (paren_depth + 1)%Z
              else if is_char rparen c then (paren_depth - 1)%Z
              else paren_depth in
            scan_parens fuel' content (i + 1)%Z paren_depth
        end
    end
  else Ok (i, paren_depth).

(** The path of a site: [extract_string_arg] for the keyword path, then
    the UNKNOWN default of a falsy result. *)
Definition resolve_path (decorator_args : str) : str :=
  match extract_string_arg decorator_args (lit "path") with
  | Some (c :: p) => c :: p
  | _ => lit "UNKNOWN"
  end.

Section Extractor.

(** [\d] in a [str] pattern: the decimal digits of the Unicode database of
    the running interpreter. *)
Variable isdecimal : char -> bool.

(** The pattern [/v\d+], compiled with [re.IGNORECASE]. *)
Definition VERSION_PATTERN : regex :=
  Seq (Chr (is_char slash)) (Seq (Chr ci_v) (Plus isdecimal)).

(** [bool(VERSION_PATTERN.search(path))] *)
Definition has_version (path : str) : bool :=
  match re_search VERSION_PATTERN path with
  | Some _ => true
  | None => false
  end.

(** The body of the loop over the matches, for one match. *)
Definition analyze_site (file content : str) (m : site) : result route :=
  let start_pos := site_end m in
  match scan_parens (List.length content) content start_pos 1 with
  | Ok (i, _) =>
      let decorator_args := strip (py_slice content start_pos (i - 1)) in
      let path := resolve_path decorator_args in
      Ok {| method := site_method m;
            path := path;
            file := file;
            versioned := has_version path;
            has_response_model := has_kwarg decorator_args (lit "response_model");
            has_tags := has_kwarg decorator_args (lit "tags");
            has_summary := has_kwarg decorator_args (lit "summary");
            has_description := has_kwarg decorator_args (lit "description");
            decorator_args := decorator_args |}
  | Raised => Raised
  | OutOfFuel => OutOfFuel
  end.

Definition analyze_file (f : source_file) : result (list route) :=
  collect (analyze_site (rel_path f) (content f)) (sites f).

Definition analyze_routes (files : list source_file) : result (list route) :=
  match collect analyze_file files with
  | Ok rs => Ok (List.concat rs)
  | Raised => Raised
  | OutOfFuel => OutOfFuel
  end.

End Extractor.

(** ** Scoring *)

Record scored_route : Type := {
  scored : route;
  score : Z;
  penalties : list string
}.

Definition MSG_VERSIONING : string := "Missing API versioning (e.g., /v1/, /v2/)".
Definition MSG_RESPONSE_MODEL : string := "Missing response_model (critical for typing & docs)".
Definition MSG_TAGS : string := "Missing tags= for OpenAPI grouping".
Definition MSG_SUMMARY : string := "Missing summary= for endpoint title".
Definition MSG_DESCRIPTION : string := "Missing description= for details".

(** One [if not route[...]] block of [score_route]. *)
Definition penalise (present : bool) (points : Z) (msg : string)
           (acc : Z * list string) : Z * list string :=
  if negb present then (fst acc - points, snd acc ++ [msg])%Z else acc.

Definition score_route (r : route) : scored_route :=
  let acc := (100%Z, @nil string) in
  let acc := penalise (versioned r) 20 MSG_VERSIONING acc in
  let acc := penalise (has_response_model r) 25 MSG_RESPONSE_MODEL acc in
  let acc := penalise (has_tags r) 10 MSG_TAGS acc in
  let acc := penalise (has_summary r) 10 MSG_SUMMARY acc in
  let acc := penalise (has_description r) 5 MSG_DESCRIPTION acc in
  {| scored := r; score := Z.max (fst acc) 30; penalties := snd acc |}.

(** [score_route] without the [max(score, 30)] of its last assignment. *)
Definition score_route_unclamped (r : route) : scored_route :=
  let acc := (100%Z, @nil string) in
  let acc := penalise (versioned r) 20 MSG_VERSIONING acc in
  let acc := penalise (has_response_model r) 25 MSG_RESPONSE_MODEL acc in
  let acc := penalise (has_tags r) 10 MSG_TAGS acc in
  let acc := penalise (has_summary r) 10 MSG_SUMMARY acc in
  let acc := penalise (has_description r) 5 MSG_DESCRIPTION acc in
  {| scored := r; score := fst acc; penalties := snd acc |}.

(** ** The command, up to the average *)

Definition EXIT_OK : Z := 0.
Definition EXIT_SCORE_BELOW_THRESHOLD : Z := 1.
Definition EXIT_INVALID_REPO : Z := 2.
Definition EXIT_INTERNAL_ERROR : Z := 3.

(** Where [analyze_command] stands once the scan is over: the process has
    exited with a code, or the scored routes and the two operands of the
    division [sum(...) / len(scored_routes)] are at hand. *)
Inductive command_state : Type :=
| Exit (code : Z)
| Averaging (scored_routes : list scored_route) (total : Z) (count : Z).

Definition analyze_command (repo_is_dir : bool) (routes : list route) : command_state :=
  if negb repo_is_dir then Exit EXIT_INVALID_REPO
  else
    match routes with
    | [] => Exit EXIT_INTERNAL_ERROR
    | _ :: _ =>
        let scored_routes := map score_route routes in
        Averaging scored_routes
                  (fold_right Z.add 0%Z (map score scored_routes))
                  (Z.of_nat (List.length scored_routes))
    end.

(** ** Notions the statements are written with *)

(** The words a pattern matches. *)
Fixpoint Lang (r : regex) (w : str) : Prop :=
  match r with
  | Lit l => w = l
  | Chr p => exists c, w = [c] /\ p c = true
  | Star p => forallb p w = true
  | Plus p => w <> [] /\ forallb p w = true
  | Seq r1 r2 => exists w1 w2, w = w1 ++ w2 /\ Lang r1 w1 /\ Lang r2 w2
  end.

Definition spaces (w : str) : Prop := forallb isspace w = true.

(** What may stand between the quotes of a literal the patterns accept: at
    least one character, none of them a quote. *)
Definition literal_body (v : str) : Prop := v <> [] /\ forallb notquote v = true.

(** [keyword = 'v'] occurs somewhere in [arg_str], with either quote on
    either side and optional blanks around the [=]. *)
Definition kwarg_literal (keyword arg_str v : str) : Prop :=
  exists pre w1 w2 q1 q2 post,
    arg_str = pre ++ keyword ++ w1 ++ equals :: w2 ++ q1 :: v ++ q2 :: post
    /\ spaces w1 /\ spaces w2
    /\ isquote q1 = true /\ isquote q2 = true /\ literal_body v.

(** [arg_str] starts, after optional blanks, with the literal ['v']. *)
Definition bare_literal (arg_str v : str) : Prop :=
  exists w q1 q2 post,
    arg_str = w ++ q1 :: v ++ q2 :: post
    /\ spaces w /\ isquote q1 = true /\ isquote q2 = true /\ literal_body v.

(** [keyword =] occurs somewhere in [arg_str]. *)
Definition kwarg_token (keyword arg_str : str) : Prop :=
  exists pre w post,
    arg_str = pre ++ keyword ++ w ++ equals :: post /\ spaces w.

(** A version segment occurs somewhere in [path]: a slash, [v] or [V], and
    one or more decimal digits. *)
Definition version_segment (isdecimal : char -> bool) (path : str) : Prop :=
  exists pre v ds post,
    path = pre ++ slash :: v :: ds ++ post
    /\ (v = ch "v" \/ v = ch "V")
    /\ ds <> [] /\ forallb isdecimal ds = true.

(** Opening parentheses minus closing ones. *)
Fixpoint nesting (s : str) : Z :=
  match s with
  | [] => 0
  | c :: s' =>
      ((if is_char lparen c then 1 else if is_char rparen c then -1 else 0)
       + nesting s')%Z
  end.

(** No prefix of [s] closes more parentheses than it opens: a parenthesis
    opened just before [s] is still open all along [s]. *)
Definition open_throughout (s : str) : Prop :=
  forall k, (k <= List.length s)%nat -> (0 <= nesting (firstn k s))%Z.

Definition open_throughoutb (s : str) : bool :=
  forallb (fun k => (0 <=? nesting (firstn k s))%Z) (seq 0 (S (List.length s))).

(** A closing parenthesis put right after [inner] matches a parenthesis
    opened right before it. *)
Definition closed_by_next (inner : str) : Prop :=
  open_throughout inner /\ nesting inner = 0%Z.

(** The loop of [scan_parens] over the text that is left, by recursion on
    that text. *)
Fixpoint scan_rest (rest : str) (i paren_depth : Z) : Z * Z :=
  match rest with
  | [] => (i, paren_depth)
  | c :: rest' =>
      if (paren_depth >? 0)%Z then
        scan_rest rest' (i + 1)%Z
                  (if is_char lparen c then paren_depth + 1
                   else if is_char rparen c then paren_depth - 1
                   else paren_depth)%Z
      else (i, paren_depth)
  end.

(** The rubric of the specification: condition, penalty, description. *)
Definition RUBRIC : list ((route -> bool) * Z * string) :=
  [ (versioned, 20%Z, MSG_VERSIONING);
    (has_response_model, 25%Z, MSG_RESPONSE_MODEL);
    (has_tags, 10%Z, MSG_TAGS);
    (has_summary, 10%Z, MSG_SUMMARY);
    (has_description, 5%Z, MSG_DESCRIPTION) ].

(** The rules a route violates, in the order of the table. *)
Definition triggered (r : route) : list ((route -> bool) * Z * string) :=
  filter (fun rule => negb (fst (fst rule) r)) RUBRIC.

Definition penalty_sum (r : route) : Z :=
  fold_right Z.add 0%Z (map (fun rule => snd (fst rule)) (triggered r)).

(** The score as the specification words it, from the five flags alone. *)
Definition rubric_score (v rm t s d : bool) : Z :=
  Z.max (100 - ((if v then 0 else 20) + (if rm then 0 else 25)
                + (if t then 0 else 10) + (if s then 0 else 10)
                + (if d then 0 else 5))) 30.

(** ** Inputs of the examples *)

(** [\d] restricted to the ten ASCII digits, which every Unicode database
    has among its decimal digits. *)
Definition isdecimal_ascii (c : char) : bool := ((48 <=? c) && (c <=? 57))%N.

Definition quoted (s : string) : str := dquote :: lit s ++ [dquote].

Definition GET_site : site := {| site_end := 9; site_method := lit "GET" |}.
Definition ROUTE_site : site := {| site_end := 11; site_method := lit "ROUTE" |}.

(** The decorator [app.get], its argument list padded with one blank on
    each side of the literal /x. *)
Definition padded_args : str := ch " " :: quoted "/x" ++ [ch " "].
Definition padded_decl : str := lit "@app.get(" ++ padded_args ++ [rparen].

(** A decorator whose argument list holds a nested call. *)
Definition nested_args : str := quoted "/x" ++ lit ", dependencies=[Depends(f(1))]".
Definition nested_decl : str :=
  lit "@app.get(" ++ nested_args ++ rparen :: lit " def h(): pass".

(** A decorator whose argument list never closes. *)
Definition unclosed_decl : str := lit "@app.get(" ++ quoted "/x".

(** The same, the file ending with a newline. *)
Definition newline : char := 10%N.
Definition unclosed_line_rest : str := quoted "/x" ++ [newline].
Definition unclosed_line_decl : str := lit "@app.get(" ++ unclosed_line_rest.

(** The decorator [app.get] on the literal /legacy alone. *)
Definition legacy_decl : str := lit "@app.get(" ++ quoted "/legacy" ++ [rparen].


(** An empty path literal, and a description that quotes a path
    assignment. *)
Definition empty_path_args : str :=
  lit "path=" ++ [dquote; dquote] ++ lit ", description="
      ++ dquote :: lit "see path='/v1/x'" ++ [dquote].
Definition empty_path_decl : str := lit "@app.get(" ++ empty_path_args ++ [rparen].

(** ** The decorator pattern and its matches *)

Definition at_sign : char := 64%N.
Definition dot : char := 46%N.

(** A lower-case letter of a verb under [re.IGNORECASE]: the code points
    whose lower case is the letter, and the equivalents the [re] module
    adds, dotless i for i and long s for s. *)
Definition ci (a : ascii) (c : char) : bool :=
  let l := N_of_ascii a in
  ((c =? l) || (c =? l - 32)
   || (l =? 105) && ((c =? 304) || (c =? 305))
   || (l =? 115) && (c =? 383))%N.

(** A verb of the pattern, letter by letter. *)
Definition verb_regex (verb : string) : regex :=
  fold_right (fun a r => Seq (Chr (ci a)) r) (Lit []) (list_ascii_of_string verb).

(** The alternatives of the group of [ROUTE_PATTERN], in its order. *)
Definition VERBS : list string :=
  ["get"; "post"; "put"; "patch"; "delete"; "options"; "head"; "trace";
   "route"]%string.

(** An alternation: the first alternative with which the rest of the
    pattern succeeds. *)
Fixpoint first_alt (A : Type) (alts : list regex) (s : str)
         (k : str -> str -> option A) : option A :=
  match alts with
  | [] => None
  | r :: alts' =>
      match rmatch r s k with
      | Some a => Some a
      | None => first_alt alts' s k
      end
  end.

(** The end of [ROUTE_PATTERN]: [\s*] and the opening parenthesis. *)
Definition ROUTE_TAIL : regex := Seq (Star isspace) (Chr (is_char lparen)).

(** [str.upper] on the code points a verb of the pattern can match. *)
Definition upper_verb_char (c : char) : char :=
  (if (97 <=? c) && (c <=? 122) then c - 32
   else if c =? 383 then 83
   else if c =? 305 then 73
   else c)%N.

Section Decorators.

(** [\w] in a [str] pattern: the word characters of the Unicode database of
    the running interpreter. *)
Variable isword : char -> bool.

(** The start of [ROUTE_PATTERN]: the at sign, [\w+] and the dot. *)
Definition ROUTE_HEAD : regex :=
  Seq (Chr (is_char at_sign)) (Seq (Plus isword) (Chr (is_char dot))).

(** One attempt of [ROUTE_PATTERN] at the start of [s]: [group(1)] and the
    length of the match. *)
Definition route_match (s : str) : option (str * nat) :=
  rmatch ROUTE_HEAD s (fun w0 s1 =>
    first_alt (map verb_regex VERBS) s1 (fun v s2 =>
      rmatch ROUTE_TAIL s2 (fun w2 _ =>
        Some (v, (List.length w0 + List.length v + List.length w2)%nat)))).

(** [ROUTE_PATTERN.finditer] on the text of which [s] is what is left from
    offset [pos] on: the end offset and [group(1)] of each match, left to
    right; [skip] characters still belong to the last match. *)
Fixpoint finditer_from (s : str) (pos : Z) (skip : nat) : list (Z * str) :=
  match s with
  | [] => []
  | _ :: s' =>
      match skip with
      | S k => finditer_from s' (pos + 1)%Z k
      | O =>
          match route_match s with
          | Some (v, n) =>
              ((pos + Z.of_nat n)%Z, v) :: finditer_from s' (pos + 1)%Z (n - 1)
          | None => finditer_from s' (pos + 1)%Z 0
          end
      end
  end.

(** The matches of a file, as the loop of [analyze_routes] uses them. *)
Definition find_sites (content : str) : list site :=
  map (fun ev => {| site_end := fst ev;
                    site_method := map upper_verb_char (snd ev) |})
      (finditer_from content 0 0).

(** A file of the walk, from its relative path and its text. *)
Definition read_file (name content : str) : source_file :=
  {| rel_path := name; content := content; sites := find_sites content |}.

End Decorators.

(** [analyze_routes] on the [.py] files of the walk, given by relative path
    and text. *)
Definition analyze_tree (isword isdecimal : char -> bool)
           (files : list (str * str)) : result (list route) :=
  analyze_routes isdecimal
    (map (fun nt => read_file isword (fst nt) (snd nt)) files).

(** The method names a record can carry when its verb is written in ASCII
    letters. *)
Definition METHODS : list str :=
  map lit ["GET"; "POST"; "PUT"; "PATCH"; "DELETE"; "OPTIONS"; "HEAD";
           "TRACE"; "ROUTE"]%string.

(** [v] is [verb] up to the case-insensitive match of each letter. *)
Definition ci_word (verb : string) (v : str) : Prop :=
  Forall2 (fun a c => ci a c = true) (list_ascii_of_string verb) v.

(** The text [s] starts with a decorator the pattern accepts: at sign, word
    characters, dot, a verb, optional blanks, opening parenthesis. *)
Definition decorator_here (isword : char -> bool) (s : str)
           (w v ws rest : str) : Prop :=
  s = at_sign :: w ++ dot :: v ++ ws ++ lparen :: rest
  /\ w <> [] /\ forallb isword w = true
  /\ (exists verb, In verb VERBS /\ ci_word verb v)
  /\ spaces ws.

(** [\w] restricted to ASCII: letters, digits and the underscore. *)
Definition isword_ascii (c : char) : bool :=
  ((48 <=? c) && (c <=? 57) || (65 <=? c) && (c <=? 90)
   || (c =? 95) || (97 <=? c) && (c <=? 122))%N.

(** ** The reports' counts and the advice loop *)

(** [len([r for r in routes if r['score'] == 100])] *)
Definition perfect_routes (routes : list scored_route) : nat :=
  List.length (filter (fun r => (score r =? 100)%Z) routes).

(** [len([r for r in routes if r['score'] < 100])] *)
Definition needs_improvement (routes : list scored_route) : nat :=
  List.length (filter (fun r => (score r <? 100)%Z) routes).

(** A scored route after the advice step: the key advice is there or not. *)
Record advised_route : Type := {
  advised : scored_route;
  advice : option str
}.

Section Advisor.

(** [advise_route(r, args.model)], the text the service gives back; it never
    raises. *)
Variable advise_route : scored_route -> str.

(** The loop over [scored_routes] with its counter [remaining]. *)
Fixpoint advice_loop (scored_routes : list scored_route) (remaining : Z)
  : list advised_route :=
  match scored_routes with
  | [] => []
  | r :: rest =>
      if ((score r <? 100) && (remaining >? 0))%Z then
        {| advised := r; advice := Some (advise_route r) |}
          :: advice_loop rest (remaining - 1)
      else
        {| advised := r; advice := None |} :: advice_loop rest remaining
  end.

(** The advice step of [analyze_command]: [ai_enabled] is
    [not args.no_ai and client is not None]. *)
Definition add_advice (no_ai has_client : bool) (ai_limit : Z)
           (scored_routes : list scored_route) : list advised_route :=
  if negb no_ai && has_client then advice_loop scored_routes ai_limit
  else map (fun r => {| advised := r; advice := None |}) scored_routes.

End Advisor.

Definition has_advice (r : advised_route) : bool :=
  match advice r with
  | Some _ => true
  | None => false
  end.

(** A route with one of its flags set. *)
Definition set_flags (v rm t s d : bool) (r : route) : route :=
  {| method := method r; path := path r; file := file r;
     versioned := v; has_response_model := rm; has_tags := t;
     has_summary := s; has_description := d;
     decorator_args := decorator_args r |}.

(** A keyword that stands for itself in a pattern: ASCII letters, digits
    and underscores only. *)
Definition plain_name (keyword : str) : Prop :=
  forallb isword_ascii keyword = true.

(** [keyword = 'v'] at the very start of [t]. *)
Definition kwarg_literal_here (keyword t v : str) : Prop :=
  exists w1 w2 q1 q2 post,
    t = keyword ++ w1 ++ equals :: w2 ++ q1 :: v ++ q2 :: post
    /\ spaces w1 /\ spaces w2
    /\ isquote q1 = true /\ isquote q2 = true /\ literal_body v.

(** The declaration of the scenario: a versioned path, a response model
    and tags, neither summary nor description. *)
Definition orders_args : str :=
  quoted "/v2/orders" ++ lit ", response_model=OrderOut, tags=["
         ++ quoted "orders" ++ lit "]".
Definition orders_decl : str :=
  lit "@app.get(" ++ orders_args ++ rparen :: lit " def orders(): pass".

(** A keyword with a quoted value before an empty path literal. *)
Definition tags_then_empty_path : str :=
  lit "tags=[" ++ quoted "a" ++ lit "], path=" ++ [dquote; dquote].

(** A leading literal before an empty path literal. *)
Definition leading_then_empty_path : str :=
  quoted "/x" ++ lit ", path=" ++ [dquote; dquote].
Definition leading_then_empty_decl : str :=
  lit "@app.get(" ++ leading_then_empty_path ++ [rparen].

(** ** The aggregate score *)

(** [a] over [b] rounded to the nearest integer, a half to the even one,
    for [0 <= a] and [0 < b]. *)
Definition div_half_even (a b : Z) : Z :=
  let q := (a / b)%Z in
  let r := (a mod b)%Z in
  if (2 * r <? b)%Z then q
  else if (b <? 2 * r)%Z then (q + 1)%Z
  else if Z.even q then q else (q + 1)%Z.

(** A non-negative binary64 number, [mant * 2 ^ expo]; a normal one has a
    mantissa of 53 bits. *)
Record float64 : Type := { mant : Z; expo : Z }.

(** [a / b] on two non-negative [int]s, as in
    [sum(...) / len(scored_routes)]: the binary64 number nearest the exact
    quotient, a half to the even mantissa.  [None] stands for
    ZeroDivisionError and OverflowError. *)
Definition true_divide (a b : Z) : option float64 :=
  if (b =? 0)%Z then None
  else if (a =? 0)%Z then Some {| mant := 0; expo := 0 |}
  else
    let e0 := (Z.log2 a - Z.log2 b)%Z in
    let below :=
      if (0 <=? e0)%Z then (a <? b * 2 ^ e0)%Z else (a * 2 ^ (- e0) <? b)%Z in
    let e := if below then (e0 - 1)%Z else e0 in
    let ex := (Z.max e (-1022) - 52)%Z in
    let m :=
      if (0 <=? ex)%Z then div_half_even a (b * 2 ^ ex)
      else div_half_even (a * 2 ^ (- ex)) b in
    let carry := (m =? 2 ^ 53)%Z in
    let m' := if carry then (2 ^ 52)%Z else m in
    let ex' := if carry then (ex + 1)%Z else ex in
    if (971 <? ex')%Z then None
    else if (m' =? 0)%Z then Some {| mant := 0; expo := 0 |}
    else Some {| mant := m'; expo := ex' |}.

(** The tenths in [round(x, 1)]: ten times the exact value of [x], rounded
    to the nearest integer, a half to the even one. *)
Definition tenths (x : float64) : Z :=
  if (0 <=? expo x)%Z then (10 * mant x * 2 ^ expo x)%Z
  else div_half_even (10 * mant x) (2 ^ (- expo x)).

(** [round(x, 1)]: the binary64 number nearest the decimal with that many
    tenths. *)
Definition round1 (x : float64) : option float64 := true_divide (tenths x) 10.

(** [sum(r["score"] for r in scored_routes) / len(scored_routes)] *)
Definition mean_float (scored_routes : list scored_route) : option float64 :=
  true_divide (fold_right Z.add 0%Z (map score scored_routes))
              (Z.of_nat (List.length scored_routes)).

(** [repo_score], the rounded mean. *)
Definition repo_score (scored_routes : list scored_route) : option float64 :=
  match mean_float scored_routes with
  | Some x => round1 x
  | None => None
  end.

(** What [analyze_command] has after the average: an exit code, or the
    aggregate score. *)
Definition command_score (repo_is_dir : bool) (routes : list route)
  : Z + option float64 :=
  match analyze_command repo_is_dir routes with
  | Exit code => inl code
  | Averaging scored_routes _ _ => inr (repo_score scored_routes)
  end.

(** A tenth nearest to the quotient [total / count]: [t / 10] is within one
    twentieth of it. *)
Definition nearest_tenth (total count t : Z) : Prop :=
  (2 * Z.abs (t * count - 10 * total) <= count)%Z.

(** The same numbers in the format of the Standard Library, and its
    binary64 division. *)
Definition to_spec (x : float64) : SpecFloat.spec_float :=
  if (mant x =? 0)%Z then SpecFloat.S754_zero false
  else SpecFloat.S754_finite false (Z.to_pos (mant x)) (expo x).

Definition spec_of_int (a : Z) : SpecFloat.spec_float :=
  SpecFloat.binary_normalize 53 1024 a 0 false.

Definition spec_divide (a b : Z) : SpecFloat.spec_float :=
  SpecFloat.SFdiv 53 1024 (spec_of_int a) (spec_of_int b).

(** [a] over [b] rounded to the nearest integer, a half upwards, for
    [0 <= a] and [0 < b]. *)
Definition div_half_up (a b : Z) : Z := ((2 * a + b) / (2 * b))%Z.

(** A route with given flags. *)
Definition flagged (v rm t s d : bool) : route :=
  {| method := lit "GET"; path := lit "/x"; file := lit "main.py";
     versioned := v; has_response_model := rm; has_tags := t;
     has_summary := s; has_description := d; decorator_args := [] |}.

(** Four routes that score 100, 45, 40 and 40: the mean is 56.25. *)
Definition four_routes : list route :=
  [ flagged true true true true true; flagged false false false true true;
    flagged false false false true false; flagged false false false true false ].

(** A hundred routes, one scoring 35 and the others 30: the mean is
    30.05. *)
Definition hundred_routes : list route :=
  flagged false false false false true
    :: repeat (flagged false false false false false) 99.

(** Routes scoring 60 and 65, in numbers that put the mean just above
    64.05. *)
Definition many_sixty : Z := 2228343565639.
Definition many_sixty_five : Z := 9499780464040.
Definition many_routes : list route :=
  repeat (flagged false true false false true) (Z.to_nat many_sixty)
    ++ repeat (flagged true false false true true) (Z.to_nat many_sixty_five).

(** A leading empty literal, and a description that quotes a path
    assignment. *)
Definition empty_leading_args : str :=
  [dquote; dquote] ++ lit ", description="
      ++ dquote :: lit "see path='/v1/x'" ++ [dquote].
Definition empty_leading_decl : str :=
  lit "@app.get(" ++ empty_leading_args ++ [rparen].

(** Inputs of further examples. *)
Definition two_decorators : str :=
  lit "@app.get(" ++ quoted "/a" ++ lit ") @router.POST  (" ++ quoted "/b"
      ++ lit ", tags=[])".

(** * Properties *)

(** ** The matcher against the words of a pattern *)

Lemma strip_prefix_some (w s s' : str) :
  strip_prefix w s = Some s' -> s = w ++ s'.
Proof.
  revert s. induction w as [|a w IH]; intros [|b s]; simpl; intro H;
    try discriminate; try (injection H as <-; reflexivity).
  destruct (N.eqb_spec a b) as [->|]; [|discriminate].
  f_equal. now apply IH.
Qed.

Lemma strip_prefix_app (w s : str) : strip_prefix w (w ++ s) = Some s.
Proof.
  induction w as [|a w IH]; simpl; [reflexivity|].
  now rewrite N.eqb_refl.
Qed.

Lemma greedy_sound (A : Type) (p : char -> bool) (s : str)
      (k : str -> str -> option A) (a : A) :
  greedy p s k = Some a ->
  exists w s', s = w ++ s' /\ forallb p w = true /\ k w s' = Some a.
Proof.
  revert k. induction s as [|c s IH]; intros k H; simpl in H.
  - exists [], []. auto.
  - destruct (p c) eqn:Hc.
    + destruct (greedy p s (fun w rest => k (c :: w) rest)) as [a'|] eqn:G.
      * injection H as ->.
        destruct (IH _ G) as (w & s' & -> & Hw & Hk).
        exists (c :: w), s'. simpl. rewrite Hc, Hw. auto.
      * exists [], (c :: s). auto.
    + exists [], (c :: s). auto.
Qed.

Lemma greedy_complete (A : Type) (p : char -> bool) (w s' : str)
      (k : str -> str -> option A) :
  forallb p w = true -> k w s' <> None -> greedy p (w ++ s') k <> None.
Proof.
  revert k. induction w as [|c w IH]; intros k Hw Hk.
  - simpl. destruct s' as [|c s']; simpl; [exact Hk|].
    destruct (p c); [|exact Hk].
    destruct (greedy p s' _); [discriminate|exact Hk].
  - simpl in Hw. apply andb_prop in Hw as [Hc Hw].
    simpl. rewrite Hc.
    specialize (IH (fun w rest => k (c :: w) rest) Hw Hk).
    destruct (greedy p (w ++ s') _); [discriminate|contradiction].
Qed.

Lemma rmatch_sound (A : Type) (r : regex) :
  forall (s : str) (k : str -> str -> option A) (a : A),
    rmatch r s k = Some a ->
    exists w s', s = w ++ s' /\ Lang r w /\ k w s' = Some a.
Proof.
  induction r as [l|p|p|p|r1 IH1 r2 IH2]; intros s k a H; simpl in H.
  - destruct (strip_prefix l s) as [s'|] eqn:E; [|discriminate].
    exists l, s'. split; [now apply strip_prefix_some|]. simpl. auto.
  - destruct s as [|c s]; [discriminate|].
    destruct (p c) eqn:Hc; [|discriminate].
    exists [c], s. simpl. eauto.
  - destruct (greedy_sound _ _ _ H) as (w & s' & -> & Hw & Hk).
    exists w, s'. simpl. auto.
  - destruct s as [|c s]; [discriminate|].
    destruct (p c) eqn:Hc; [|discriminate].
    destruct (greedy_sound _ _ _ H) as (w & s' & -> & Hw & Hk).
    exists (c :: w), s'. simpl. rewrite Hc, Hw.
    repeat split; auto. discriminate.
  - destruct (IH1 _ _ _ H) as (w1 & s1 & -> & L1 & H1).
    destruct (IH2 _ _ _ H1) as (w2 & s2 & -> & L2 & H2).
    exists (w1 ++ w2), s2. rewrite <- app_assoc. simpl.
    split; [reflexivity|]. split; [|exact H2].
    exists w1, w2. auto.
Qed.

Lemma rmatch_complete (A : Type) (r : regex) :
  forall (w s' : str) (k : str -> str -> option A),
    Lang r w -> k w s' <> None -> rmatch r (w ++ s') k <> None.
Proof.
  induction r as [l|p|p|p|r1 IH1 r2 IH2]; intros w s' k L Hk; simpl in L |- *.
  - subst w. now rewrite strip_prefix_app.
  - destruct L as (c & -> & Hc). simpl. now rewrite Hc.
  - now apply greedy_complete.
  - destruct L as (Hne & Hw). destruct w as [|c w]; [contradiction|].
    simpl in Hw. apply andb_prop in Hw as [Hc Hw]. simpl. rewrite Hc.
    now apply greedy_complete.
  - destruct L as (w1 & w2 & -> & L1 & L2). rewrite <- app_assoc.
    apply IH1; [exact L1|]. now apply IH2.
Qed.

Lemma search_sound (A : Type) (m : str -> option A) (s : str) (a : A) :
  search m s = Some a -> exists pre t, s = pre ++ t /\ m t = Some a.
Proof.
  induction s as [|c s IH]; simpl; intro H.
  - destruct (m []) eqn:E; [|discriminate]. injection H as ->.
    exists [], []. auto.
  - destruct (m (c :: s)) eqn:E.
    + injection H as ->. exists [], (c :: s). auto.
    + destruct (IH H) as (pre & t & -> & Ht). exists (c :: pre), t. auto.
Qed.

Lemma search_complete (A : Type) (m : str -> option A) (pre t : str) :
  m t <> None -> search m (pre ++ t) <> None.
Proof.
  intro Ht. induction pre as [|c pre IH]; simpl.
  - destruct t; simpl; destruct (m _); congruence.
  - destruct (m (c :: pre ++ t)); [discriminate|exact IH].
Qed.

Lemma search_skip (A : Type) (m : str -> option A) (c : char) (s : str) :
  m (c :: s) = None -> search m (c :: s) = search m s.
Proof. intro H. simpl. now rewrite H. Qed.

(** ** Keyword flags and the versioning flag *)

Lemma is_char_true (a c : char) : is_char a c = true <-> c = a.
Proof. unfold is_char. rewrite N.eqb_eq. split; congruence. Qed.

Lemma has_kwarg_token (arg_str keyword : str) :
  has_kwarg arg_str keyword = true <-> kwarg_token keyword arg_str.
Proof.
  unfold has_kwarg, re_search, kwarg_token. split.
  - destruct (search _ arg_str) as [w|] eqn:S; [intros _|discriminate].
    apply search_sound in S as (pre & t & -> & M).
    apply rmatch_sound in M as (w' & post & -> & L & _).
    unfold kwarg_pattern in L. cbn [Lang] in L.
    destruct L as (k & w2 & -> & -> & ws & w3 & -> & Hws & c & -> & Hc).
    apply is_char_true in Hc as ->.
    exists pre, ws, post. split; [|exact Hws].
    now rewrite <- !app_assoc.
  - intros (pre & ws & post & -> & Hws).
    match goal with |- match ?x with _ => _ end = _ => enough (x <> None) as E end.
    { destruct (search _ _); congruence. }
    apply search_complete.
    replace (keyword ++ ws ++ equals :: post)
      with ((keyword ++ ws ++ [equals]) ++ post)
      by now rewrite <- !app_assoc.
    apply rmatch_complete; [|discriminate].
    unfold kwarg_pattern. cbn [Lang]. exists keyword, (ws ++ [equals]). repeat split.
    exists ws, [equals]. repeat split; [exact Hws|].
    exists equals. split; [reflexivity|]. now apply is_char_true.
Qed.

Lemma ci_v_true (c : char) : ci_v c = true <-> c = ch "v" \/ c = ch "V".
Proof.
  unfold ci_v. rewrite orb_true_iff, !is_char_true. tauto.
Qed.

Lemma has_version_segment (isdecimal : char -> bool) (p : str) :
  has_version isdecimal p = true <-> version_segment isdecimal p.
Proof.
  unfold has_version, re_search, version_segment. split.
  - destruct (search _ p) as [w|] eqn:S; [intros _|discriminate].
    apply search_sound in S as (pre & t & -> & M).
    apply rmatch_sound in M as (w' & post & -> & L & _).
    unfold VERSION_PATTERN in L. cbn [Lang] in L.
    destruct L as (w1 & w2 & -> & (c & -> & Hc) & w3 & ds & ->
                   & (v & -> & Hv) & Hne & Hds).
    apply is_char_true in Hc as ->. apply ci_v_true in Hv.
    exists pre, v, ds, post. repeat split; auto.
  - intros (pre & v & ds & post & -> & Hv & Hne & Hds).
    match goal with |- match ?x with _ => _ end = _ => enough (x <> None) as E end.
    { destruct (search _ _); congruence. }
    apply search_complete.
    change (slash :: v :: ds ++ post) with (([slash] ++ [v] ++ ds) ++ post).
    apply rmatch_complete; [|discriminate].
    unfold VERSION_PATTERN. cbn [Lang]. exists [slash], (v :: ds). repeat split.
    + exists slash. split; [reflexivity|]. now apply is_char_true.
    + exists [v], ds. repeat split; auto.
      exists v. split; [reflexivity|]. now apply ci_v_true.
Qed.

Lemma analyze_site_fields (isdecimal : char -> bool) (f c : str) (m : site) (r : route) :
  analyze_site isdecimal f c m = Ok r ->
  method r = site_method m
  /\ file r = f
  /\ path r = resolve_path (decorator_args r)
  /\ versioned r = has_version isdecimal (path r)
  /\ has_response_model r = has_kwarg (decorator_args r) (lit "response_model")
  /\ has_tags r = has_kwarg (decorator_args r) (lit "tags")
  /\ has_summary r = has_kwarg (decorator_args r) (lit "summary")
  /\ has_description r = has_kwarg (decorator_args r) (lit "description").
Proof.
  unfold analyze_site.
  destruct (scan_parens _ _ _ _) as [[i d]| |]; try discriminate.
  intro H. injection H as <-. simpl. repeat split.
Qed.

(** C4.  The versioning flag of a path is true exactly when the path
    contains, anywhere, a slash, the letter v in either case and one or more
    decimal digits; so it is for the flag of every record.  The paths
    /v1/users and /v12/items have it, /users and the sentinel UNKNOWN do
    not. *)
Theorem versioning_flag_iff_segment
        (isdecimal : char -> bool)
        (Hascii : forall c, isdecimal_ascii c = true -> isdecimal c = true) :
  (forall p, has_version isdecimal p = true <-> version_segment isdecimal p)
  /\ (forall f c m r, analyze_site isdecimal f c m = Ok r ->
        (versioned r = true <-> version_segment isdecimal (path r)))
  /\ has_version isdecimal (lit "/v1/users") = true
  /\ has_version isdecimal (lit "/v12/items") = true
  /\ has_version isdecimal (lit "/users") = false
  /\ has_version isdecimal (lit "UNKNOWN") = false.
Proof.
  split; [apply has_version_segment|].
  split.
  { intros f c m r H.
    destruct (analyze_site_fields _ _ _ _ H) as (_ & _ & _ & -> & _).
    apply has_version_segment. }
  split.
  { apply has_version_segment.
    exists [], (ch "v"), (lit "1"), (lit "/users").
    repeat split; auto; [discriminate|].
    simpl. now rewrite Hascii. }
  split.
  { apply has_version_segment.
    exists [], (ch "v"), (lit "12"), (lit "/items").
    repeat split; auto; [discriminate|].
    simpl. now rewrite !Hascii. }
  split; reflexivity.
Qed.

Lemma versioning_flag_iff_segment_witness :
  (forall p, has_version isdecimal_ascii p = true
             <-> version_segment isdecimal_ascii p)
  /\ (forall f c m r, analyze_site isdecimal_ascii f c m = Ok r ->
        (versioned r = true <-> version_segment isdecimal_ascii (path r)))
  /\ has_version isdecimal_ascii (lit "/v1/users") = true
  /\ has_version isdecimal_ascii (lit "/v12/items") = true
  /\ has_version isdecimal_ascii (lit "/users") = false
  /\ has_version isdecimal_ascii (lit "UNKNOWN") = false.
Proof.
  apply (@versioning_flag_iff_segment isdecimal_ascii).
  intros c Hc. exact Hc.
Defined.

(** ** The delimiting scan *)

Lemma len_app (a b : str) : len (a ++ b) = (len a + len b)%Z.
Proof. unfold len. rewrite length_app. lia. Qed.

Lemma len_nonneg (s : str) : (0 <= len s)%Z.
Proof. unfold len. lia. Qed.

Lemma skipn_nth_cons (l : str) (n : nat) (c : char) :
  nth_error l n = Some c -> skipn n l = c :: skipn (S n) l.
Proof.
  revert l. induction n as [|n IH]; intros [|x l] H; simpl in H; try discriminate.
  - now injection H as ->.
  - now apply IH.
Qed.

Lemma py_index_in_range (s : str) (i : Z) :
  (0 <= i < len s)%Z -> py_index s i = nth_error s (Z.to_nat i).
Proof.
  intro H. unfold py_index.
  replace ((0 <=? i) && (i <? len s))%Z with true; [reflexivity|].
  symmetry. apply andb_true_intro. split; [apply Z.leb_le|apply Z.ltb_lt]; lia.
Qed.

Lemma scan_parens_rest (fuel : nat) :
  forall (content : str) (i d : Z),
    (0 <= i <= len content)%Z ->
    (List.length content - Z.to_nat i <= fuel)%nat ->
    scan_parens fuel content i d
    = Ok (scan_rest (skipn (Z.to_nat i) content) i d).
Proof.
  induction fuel as [|fuel IH]; intros content i d Hi Hf.
  - assert (i = len content) as -> by (unfold len in *; lia).
    simpl. rewrite Z.ltb_irrefl. simpl.
    unfold len. rewrite Nat2Z.id, skipn_all. reflexivity.
  - simpl. destruct (i <? len content)%Z eqn:Hlt.
    + apply Z.ltb_lt in Hlt.
      rewrite py_index_in_range by lia.
      destruct (nth_error content (Z.to_nat i)) as [c|] eqn:Hn.
      * rewrite (skipn_nth_cons _ _ Hn). simpl.
        destruct (d >? 0)%Z eqn:Hd; simpl; [|reflexivity].
        rewrite IH; unfold len in *; try lia.
        replace (Z.to_nat (i + 1)) with (S (Z.to_nat i)) by lia.
        reflexivity.
      * apply nth_error_None in Hn. unfold len in *. lia.
    + apply Z.ltb_ge in Hlt.
      assert (i = len content) as -> by lia.
      simpl. unfold len. rewrite Nat2Z.id, skipn_all. reflexivity.
Qed.

Lemma scan_rest_exit (rest : str) :
  forall (i d : Z),
    (i <= fst (scan_rest rest i d) <= i + len rest)%Z
    /\ (fst (scan_rest rest i d) = (i + len rest)%Z
        \/ (snd (scan_rest rest i d) <= 0)%Z).
Proof.
  induction rest as [|c rest IH]; intros i d; simpl.
  - unfold len. simpl. lia.
  - destruct (d >? 0)%Z eqn:Hd.
    + match goal with |- context [scan_rest rest ?j ?e] =>
        specialize (IH j e) end.
      unfold len in *. simpl List.length. lia.
    + simpl. pose proof (len_nonneg (c :: rest)).
      rewrite Z.gtb_ltb in Hd. apply Z.ltb_ge in Hd. lia.
Qed.

Lemma scan_rest_closed (inner post : str) :
  forall (i d : Z),
    (forall k, (k <= List.length inner)%nat ->
               (0 < d + nesting (firstn k inner))%Z) ->
    (d + nesting inner = 1)%Z ->
    scan_rest (inner ++ rparen :: post) i d = ((i + len inner + 1)%Z, 0%Z).
Proof.
  induction inner as [|c inner IH]; intros i d Hopen Hbal.
  - simpl in Hbal. assert (d = 1%Z) as -> by lia.
    simpl. unfold len. simpl.
    destruct post; simpl; f_equal; lia.
  - pose proof (Hopen 0%nat ltac:(simpl; lia)) as H0. simpl in H0.
    cbn [app scan_rest].
    replace (d >? 0)%Z with true by (symmetry; apply Z.gtb_lt; lia).
    rewrite IH.
    + unfold len. simpl List.length. f_equal. lia.
    + intros k Hk. specialize (Hopen (S k) ltac:(simpl; lia)).
      cbn [firstn nesting] in Hopen.
      destruct (is_char lparen c), (is_char rparen c); lia.
    + cbn [nesting] in Hbal.
      destruct (is_char lparen c), (is_char rparen c); lia.
Qed.

Lemma scan_rest_open (rest : str) :
  forall (i d : Z),
    (forall k, (k <= List.length rest)%nat ->
               (0 < d + nesting (firstn k rest))%Z) ->
    scan_rest rest i d = ((i + len rest)%Z, (d + nesting rest)%Z).
Proof.
  induction rest as [|c rest IH]; intros i d Hopen.
  - simpl. unfold len. simpl. f_equal; lia.
  - pose proof (Hopen 0%nat ltac:(simpl; lia)) as H0. simpl in H0.
    cbn [scan_rest].
    replace (d >? 0)%Z with true by (symmetry; apply Z.gtb_lt; lia).
    rewrite IH.
    + unfold len. cbn [nesting]. simpl List.length.
      destruct (is_char lparen c), (is_char rparen c); f_equal; lia.
    + intros k Hk. specialize (Hopen (S k) ltac:(simpl; lia)).
      cbn [firstn nesting] in Hopen.
      destruct (is_char lparen c), (is_char rparen c); lia.
Qed.

Lemma slice_bound_in_range (s : str) (x : Z) :
  (0 <= x <= len s)%Z -> slice_bound s x = x.
Proof.
  intro H. unfold slice_bound.
  replace (x <? 0)%Z with false by (symmetry; apply Z.ltb_ge; lia). lia.
Qed.

Lemma py_slice_middle (pre mid post : str) :
  py_slice (pre ++ mid ++ post) (len pre) (len pre + len mid) = mid.
Proof.
  unfold py_slice.
  pose proof (len_nonneg pre). pose proof (len_nonneg mid).
  pose proof (len_nonneg post).
  rewrite !slice_bound_in_range by (rewrite !len_app; lia).
  replace (len pre + len mid - len pre)%Z with (len mid) by lia.
  unfold len. rewrite !Nat2Z.id.
  rewrite skipn_app, skipn_all, Nat.sub_diag. simpl.
  rewrite firstn_app, firstn_all, Nat.sub_diag. simpl.
  apply app_nil_r.
Qed.

Lemma py_slice_drop_last (pre rest : str) :
  py_slice (pre ++ rest) (len pre) (len (pre ++ rest) - 1)
  = firstn (List.length rest - 1) rest.
Proof.
  unfold py_slice.
  pose proof (len_nonneg pre). pose proof (len_nonneg rest).
  rewrite (slice_bound_in_range (pre ++ rest) (x := len pre))
    by (rewrite len_app; lia).
  replace (Z.to_nat (len pre)) with (List.length pre)
    by (unfold len; now rewrite Nat2Z.id).
  rewrite skipn_app, skipn_all, Nat.sub_diag. cbn [skipn app].
  destruct rest as [|c rest]; [now rewrite !firstn_nil|].
  assert (1 <= len (c :: rest))%Z by (unfold len; simpl List.length; lia).
  rewrite slice_bound_in_range by (rewrite len_app; lia).
  rewrite len_app. f_equal. unfold len. lia.
Qed.

Lemma open_throughoutb_true (s : str) :
  open_throughoutb s = true -> open_throughout s.
Proof.
  unfold open_throughoutb, open_throughout. intros H k Hk.
  rewrite forallb_forall in H.
  apply Z.leb_le. apply H. apply in_seq. lia.
Qed.

Lemma skipn_len_app (pre rest : str) :
  skipn (Z.to_nat (len pre)) (pre ++ rest) = rest.
Proof.
  unfold len. rewrite Nat2Z.id, skipn_app, skipn_all, Nat.sub_diag.
  reflexivity.
Qed.

Lemma scan_from_offset (fuel : nat) (pre rest : str) (d : Z) :
  (List.length (pre ++ rest) <= fuel)%nat ->
  scan_parens fuel (pre ++ rest) (len pre) d = Ok (scan_rest rest (len pre) d).
Proof.
  intro Hf. rewrite scan_parens_rest.
  - now rewrite skipn_len_app.
  - pose proof (len_nonneg pre). pose proof (len_nonneg rest).
    rewrite len_app. lia.
  - lia.
Qed.

(** C2, as the code has it.  When the argument list of a site closes, the
    scan (counter started at 1, up on an opening and down on a closing
    parenthesis) stops with the counter at 0 just past the matching closing
    parenthesis, and the argument text is the text strictly between the
    two parentheses with its leading and trailing whitespace stripped;
    nested parentheses stay inside it. *)
Theorem closed_args_stripped
        (isdecimal : char -> bool) (f pre inner post : str) (m : site)
        (Hm : site_end m = len pre)
        (Hc : closed_by_next inner) :
  let content := pre ++ inner ++ rparen :: post in
  scan_parens (List.length content) content (site_end m) 1
  = Ok ((len pre + len inner + 1)%Z, 0%Z)
  /\ exists r,
      analyze_site isdecimal f content m = Ok r
      /\ decorator_args r = strip inner.
Proof.
  intro content. destruct Hc as [Hopen Hbal].
  assert (S : scan_parens (List.length content) content (site_end m) 1
              = Ok ((len pre + len inner + 1)%Z, 0%Z)).
  { rewrite Hm. unfold content. rewrite scan_from_offset by lia.
    rewrite scan_rest_closed; [reflexivity| |lia].
    intros k Hk. specialize (Hopen k Hk). lia. }
  split; [exact S|].
  unfold analyze_site. rewrite S. eexists. split; [reflexivity|].
  cbn [decorator_args]. rewrite Hm. f_equal.
  replace (len pre + len inner + 1 - 1)%Z with (len pre + len inner)%Z by lia.
  apply py_slice_middle.
Qed.

Lemma closed_args_stripped_witness :
  scan_parens (List.length nested_decl) nested_decl (site_end GET_site) 1
  = Ok ((len (lit "@app.get(") + len nested_args + 1)%Z, 0%Z)
  /\ exists r,
      analyze_site isdecimal_ascii (lit "main.py") nested_decl GET_site = Ok r
      /\ decorator_args r = strip nested_args.
Proof.
  apply (@closed_args_stripped isdecimal_ascii (lit "main.py")
           (lit "@app.get(") nested_args (lit " def h(): pass") GET_site).
  - reflexivity.
  - split; [apply open_throughoutb_true|]; reflexivity.
Defined.

(** C2, counterexample: with a blank on each side of the literal, the text
    strictly between the parentheses keeps the blanks and the argument text
    of the record does not. *)
Lemma padded_args_not_verbatim :
  padded_decl = lit "@app.get(" ++ padded_args ++ [rparen]
  /\ site_end GET_site = len (lit "@app.get(")
  /\ closed_by_next padded_args
  /\ exists r,
      analyze_site isdecimal_ascii (lit "main.py") padded_decl GET_site = Ok r
      /\ decorator_args r = quoted "/x"
      /\ decorator_args r <> padded_args.
Proof.
  split; [reflexivity|]. split; [reflexivity|].
  split; [split; [apply open_throughoutb_true|]; reflexivity|].
  eexists. split; [reflexivity|]. split; [reflexivity|].
  cbn. discriminate.
Qed.

Lemma dropwhile_all (p : char -> bool) (s : str) :
  forallb p s = true -> dropwhile p s = [].
Proof.
  induction s as [|c s IH]; simpl; [reflexivity|].
  intro H. apply andb_prop in H as [-> H]. now apply IH.
Qed.

Lemma dropwhile_app (p : char -> bool) (s t : str) :
  dropwhile p (s ++ t)
  = if forallb p s then dropwhile p t else dropwhile p s ++ t.
Proof.
  induction s as [|c s IH]; simpl; [reflexivity|].
  destruct (p c); simpl; [exact IH|reflexivity].
Qed.

(** A trailing blank does not show after [strip]. *)
Lemma strip_snoc_space (s : str) (c : char) :
  isspace c = true -> strip (s ++ [c]) = strip s.
Proof.
  intro Hc. unfold strip, rstrip, lstrip. rewrite dropwhile_app.
  destruct (forallb isspace s) eqn:Hs.
  - rewrite (dropwhile_all _ _ Hs). simpl. now rewrite Hc.
  - rewrite rev_app_distr. simpl. now rewrite Hc.
Qed.

(** C7, as the code has it.  From any offset of any text the scan ends,
    without raising, at an offset within the text where the loop condition
    is false, and the site yields a record.  When the argument list never
    closes, the scan ends at the end of the text with the counter still
    positive, and for a text that ends in whitespace, as a file with a final
    newline does, or that has nothing left, the argument text is the whole
    of the text that is left with its leading and trailing whitespace
    stripped. *)
Theorem scan_total_site_recorded
        (isdecimal : char -> bool) (f pre rest : str) (m : site)
        (Hm : site_end m = len pre) :
  let content := pre ++ rest in
  exists i d r,
    (forall fuel, (List.length content <= fuel)%nat ->
                  scan_parens fuel content (site_end m) 1 = Ok (i, d))
    /\ (site_end m <= i <= len content)%Z
    /\ (i = len content \/ d <= 0)%Z
    /\ analyze_site isdecimal f content m = Ok r
    /\ (open_throughout rest ->
        i = len content /\ (0 < d)%Z
        /\ (rest = [] \/ (exists rest' c, rest = rest' ++ [c]
                                           /\ isspace c = true) ->
            decorator_args r = strip rest)).
Proof.
  intro content.
  exists (fst (scan_rest rest (len pre) 1)), (snd (scan_rest rest (len pre) 1)).
  assert (S : forall fuel, (List.length content <= fuel)%nat ->
                scan_parens fuel content (site_end m) 1
                = Ok (fst (scan_rest rest (len pre) 1),
                      snd (scan_rest rest (len pre) 1))).
  { intros fuel Hf. rewrite Hm. unfold content.
    rewrite scan_from_offset by exact Hf. now rewrite <- surjective_pairing. }
  unfold analyze_site. rewrite (S _ (le_n _)).
  eexists. split; [exact S|].
  destruct (scan_rest_exit rest (len pre) 1) as [Hb He].
  unfold content. rewrite len_app, Hm.
  split; [lia|]. split; [lia|]. split; [reflexivity|].
  intro Hopen. cbn [decorator_args].
  rewrite scan_rest_open in *
    by (intros k Hk; specialize (Hopen k Hk); lia).
  cbn [fst snd]. split; [reflexivity|].
  split; [specialize (Hopen _ (le_n _)); rewrite firstn_all in Hopen; lia|].
  assert (A : strip (py_slice (pre ++ rest) (len pre) (len pre + len rest - 1))
              = strip (firstn (List.length rest - 1) rest)).
  { f_equal. rewrite <- len_app. apply py_slice_drop_last. }
  rewrite A. intros [->|(rest' & c & -> & Hc)]; [reflexivity|].
  rewrite strip_snoc_space by exact Hc. f_equal.
  rewrite length_app. simpl List.length.
  replace (List.length rest' + 1 - 1)%nat with (List.length rest') by lia.
  rewrite firstn_app, firstn_all, Nat.sub_diag. simpl. apply app_nil_r.
Qed.

Lemma scan_total_site_recorded_witness :
  exists r,
    analyze_site isdecimal_ascii (lit "main.py") unclosed_line_decl GET_site
    = Ok r
    /\ decorator_args r = strip unclosed_line_rest.
Proof.
  destruct (@scan_total_site_recorded isdecimal_ascii (lit "main.py")
              (lit "@app.get(") unclosed_line_rest GET_site eq_refl)
    as (i & d & r & _ & _ & _ & Hr & Hopen).
  exists r. split; [exact Hr|].
  apply Hopen; [apply open_throughoutb_true; reflexivity|].
  right. exists (quoted "/x"), newline. split; reflexivity.
Defined.

(** C7, counterexample: the argument list never closes and the file ends
    with a newline; the text that is left ends with that newline and the
    argument text of the record does not. *)
Lemma unclosed_args_not_whole_rest :
  unclosed_line_decl = lit "@app.get(" ++ unclosed_line_rest
  /\ site_end GET_site = len (lit "@app.get(")
  /\ open_throughout unclosed_line_rest
  /\ exists r,
      analyze_site isdecimal_ascii (lit "main.py") unclosed_line_decl GET_site
      = Ok r
      /\ decorator_args r = quoted "/x"
      /\ decorator_args r <> unclosed_line_rest.
Proof.
  split; [reflexivity|]. split; [reflexivity|].
  split; [apply open_throughoutb_true; reflexivity|].
  eexists. split; [reflexivity|]. split; [reflexivity|].
  cbn. discriminate.
Qed.

(** The final character of an argument list that never closes is left out
    of the argument text, also when it is no whitespace. *)
Lemma unclosed_args_lose_final_char :
  unclosed_decl = lit "@app.get(" ++ quoted "/x"
  /\ site_end GET_site = len (lit "@app.get(")
  /\ open_throughout (quoted "/x")
  /\ exists r,
      analyze_site isdecimal_ascii (lit "main.py") unclosed_decl GET_site = Ok r
      /\ decorator_args r = dquote :: lit "/x"
      /\ decorator_args r <> quoted "/x".
Proof.
  split; [reflexivity|]. split; [reflexivity|].
  split; [apply open_throughoutb_true; reflexivity|].
  eexists. split; [reflexivity|]. split; [reflexivity|].
  cbn. discriminate.
Qed.

Lemma collect_ok (A B : Type) (f : A -> result B) (l : list A) :
  (forall x, In x l -> exists y, f x = Ok y) ->
  exists ys, collect f l = Ok ys /\ Forall2 (fun x y => f x = Ok y) l ys.
Proof.
  induction l as [|x l IH]; intro H.
  - exists []. split; [reflexivity|constructor].
  - destruct (H x (or_introl eq_refl)) as [y Hy].
    destruct IH as (ys & Hc & Hall); [intros z Hz; apply H; now right|].
    exists (y :: ys). simpl. rewrite Hy, Hc. split; [reflexivity|].
    now constructor.
Qed.

Lemma analyze_site_ok (isdecimal : char -> bool) (f c : str) (m : site) :
  (0 <= site_end m <= len c)%Z ->
  exists r, analyze_site isdecimal f c m = Ok r.
Proof.
  intro Hm. unfold analyze_site.
  rewrite scan_parens_rest by (assumption || lia).
  destruct (scan_rest _ _ _) as [i d]. eauto.
Qed.

(** Every match of every file yields one record, whatever the text. *)
Lemma analyze_routes_one_record_per_site
      (isdecimal : char -> bool) (files : list source_file) :
  (forall sf, In sf files -> forall m, In m (sites sf) ->
              (0 <= site_end m <= len (content sf))%Z) ->
  exists rs,
    analyze_routes isdecimal files = Ok rs
    /\ List.length rs
       = list_sum (map (fun sf => List.length (sites sf)) files).
Proof.
  intro Hsites. unfold analyze_routes.
  destruct (collect_ok (analyze_file isdecimal) files) as (rss & -> & Hall).
  - intros sf Hsf. unfold analyze_file.
    destruct (collect_ok (analyze_site isdecimal (rel_path sf) (content sf))
                         (sites sf)) as (rs & Hrs & _).
    + intros m Hm. apply analyze_site_ok. exact (Hsites sf Hsf m Hm).
    + eauto.
  - eexists. split; [reflexivity|].
    rewrite length_concat. f_equal.
    clear Hsites. induction Hall as [|sf rs files rss Hsf _ IH]; [reflexivity|].
    simpl. f_equal; [|exact IH].
    unfold analyze_file in Hsf.
    clear IH. revert rs Hsf.
    induction (sites sf) as [|m ms IHm]; intros rs Hsf; simpl in Hsf.
    + now injection Hsf as <-.
    + destruct (analyze_site _ _ _ m); try discriminate.
      destruct (collect _ ms) as [ys| |] eqn:E; try discriminate.
      injection Hsf as <-. simpl. f_equal. now apply IHm.
Qed.

(** ** Scoring *)

Ltac by_flags r :=
  destruct r as [m p f v rm t s d a];
  destruct v, rm, t, s, d; vm_compute; repeat split; congruence.

Lemma score_route_bounds (r : route) : (30 <= score (score_route r) <= 100)%Z.
Proof. by_flags r. Qed.

(** C1.  The score of a route is max(100 - sum of the triggered penalties,
    30), with penalties 20, 25, 10, 10 and 5 for a missing version segment,
    response model, tags, summary and description; it is a function of the
    five flags alone and lies between 30 and 100.  A record with versioning,
    response model and tags, and without summary and description, scores 85
    with the summary and description penalties, whatever its other
    fields. *)
Theorem score_route_rubric (r : route) :
  score (score_route r)
  = rubric_score (versioned r) (has_response_model r) (has_tags r)
                 (has_summary r) (has_description r)
  /\ score (score_route r) = Z.max (100 - penalty_sum r) 30
  /\ (30 <= score (score_route r) <= 100)%Z
  /\ forall m p f a,
      let r85 := {| method := m; path := p; file := f;
                    versioned := true; has_response_model := true;
                    has_tags := true; has_summary := false;
                    has_description := false; decorator_args := a |} in
      score (score_route r85) = 85%Z
      /\ penalties (score_route r85) = [MSG_SUMMARY; MSG_DESCRIPTION].
Proof.
  split; [by_flags r|]. split; [by_flags r|]. split; [by_flags r|].
  intros m p f a. split; reflexivity.
Qed.

(** C6.  The penalties of a scored route are the descriptions of the rules
    it violates, in the order of the rubric table (versioning, response
    model, tags, summary, description).  The declaration whose argument
    text is the literal /legacy alone gets all five, in that order, and the
    score 30. *)
Theorem penalties_in_table_order (r : route) :
  penalties (score_route r) = map snd (triggered r)
  /\ forall isdecimal f,
      exists r',
        analyze_site isdecimal f legacy_decl GET_site = Ok r'
        /\ decorator_args r' = quoted "/legacy"
        /\ penalties (score_route r')
           = [MSG_VERSIONING; MSG_RESPONSE_MODEL; MSG_TAGS; MSG_SUMMARY;
              MSG_DESCRIPTION]
        /\ score (score_route r') = 30%Z.
Proof.
  split; [by_flags r|].
  intros isdecimal f. eexists. split; [reflexivity|].
  repeat split.
Qed.

(** C9.  The penalties of the table add up to 70, so the value before the
    clamp is never below 30 and [score_route] equals its variant without
    the clamp on every route. *)
Theorem floor_never_binding (r : route) :
  fold_right Z.add 0%Z (map (fun rule => snd (fst rule)) RUBRIC) = 70%Z
  /\ (30 <= score (score_route_unclamped r))%Z
  /\ score_route r = score_route_unclamped r.
Proof.
  split; [reflexivity|]. split; by_flags r.
Qed.

(** With no route found the command exits with EXIT_INTERNAL_ERROR before
    any score or average is computed; otherwise the division has a positive
    divisor and a dividend between 30 and 100 times it. *)
Lemma analyze_command_guard (routes : list route) :
  match analyze_command true routes with
  | Exit code => routes = [] /\ code = EXIT_INTERNAL_ERROR
  | Averaging scored_routes total count =>
      routes <> []
      /\ scored_routes = map score_route routes
      /\ (0 < count)%Z /\ count = Z.of_nat (List.length routes)
      /\ total = fold_right Z.add 0%Z (map score scored_routes)
      /\ (30 * count <= total <= 100 * count)%Z
  end.
Proof.
  destruct routes as [|r0 routes]; [split; reflexivity|].
  cbn [analyze_command negb].
  split; [discriminate|]. split; [reflexivity|].
  rewrite length_map. split; [simpl List.length; lia|].
  split; [reflexivity|]. split; [reflexivity|].
  generalize (r0 :: routes) as l. clear. intro l.
  induction l as [|r l IH]; [simpl; lia|].
  cbn [map fold_right List.length].
  pose proof (score_route_bounds r).
  lia.
Qed.

(** ** Path resolution *)

Lemma match_group_sound (before grp after : regex) (s v : str) :
  match_group before grp after s = Some v ->
  exists w0 w2 s',
    s = w0 ++ v ++ w2 ++ s' /\ Lang before w0 /\ Lang grp v /\ Lang after w2.
Proof.
  unfold match_group. intro H.
  apply rmatch_sound in H as (w0 & s0 & -> & L0 & H).
  apply rmatch_sound in H as (v' & s1 & -> & L1 & H).
  apply rmatch_sound in H as (w2 & s2 & -> & L2 & H).
  injection H as ->. exists w0, w2, s2. auto.
Qed.

Lemma match_group_complete (before grp after : regex) (w0 v w2 s' : str) :
  Lang before w0 -> Lang grp v -> Lang after w2 ->
  match_group before grp after (w0 ++ v ++ w2 ++ s') <> None.
Proof.
  intros L0 L1 L2. unfold match_group.
  apply rmatch_complete; [exact L0|].
  apply rmatch_complete; [exact L1|].
  apply rmatch_complete; [exact L2|discriminate].
Qed.

Lemma kwarg_opening_lang (keyword w : str) :
  Lang (kwarg_opening keyword) w <->
  exists w1 w2 q,
    w = keyword ++ w1 ++ equals :: w2 ++ [q]
    /\ spaces w1 /\ spaces w2 /\ isquote q = true.
Proof.
  unfold kwarg_opening. cbn [Lang]. split.
  - intros (k & x1 & -> & -> & w1 & x2 & -> & H1 & e & x3 & ->
            & (c & -> & Hc) & w2 & x4 & -> & H2 & q & -> & Hq).
    apply is_char_true in Hc as ->.
    exists w1, w2, q. auto.
  - intros (w1 & w2 & q & -> & H1 & H2 & Hq).
    exists keyword, (w1 ++ equals :: w2 ++ [q]). repeat split.
    exists w1, (equals :: w2 ++ [q]). repeat split; [exact H1|].
    exists [equals], (w2 ++ [q]). repeat split.
    + exists equals. split; [reflexivity|]. now apply is_char_true.
    + exists w2, [q]. repeat split; [exact H2|]. exists q. auto.
Qed.

Lemma bare_opening_lang (w : str) :
  Lang bare_opening w <->
  exists ws q, w = ws ++ [q] /\ spaces ws /\ isquote q = true.
Proof.
  unfold bare_opening. cbn [Lang]. split.
  - intros (ws & x & -> & Hws & q & -> & Hq). exists ws, q. auto.
  - intros (ws & q & -> & Hws & Hq). exists ws, [q]. repeat split; [exact Hws|].
    exists q. auto.
Qed.

Lemma kwarg_search_sound (keyword arg_str v : str) :
  re_search_group (kwarg_opening keyword) (Plus notquote) (Chr isquote) arg_str
  = Some v ->
  kwarg_literal keyword arg_str v.
Proof.
  unfold re_search_group. intro H.
  apply search_sound in H as (pre & t & -> & H).
  apply match_group_sound in H as (w0 & w2 & post & -> & L0 & Lv & L2).
  apply kwarg_opening_lang in L0 as (w1 & w3 & q1 & -> & H1 & H3 & Hq1).
  cbn [Lang] in L2. destruct L2 as (q2 & -> & Hq2).
  exists pre, w1, w3, q1, q2, post. repeat split; auto; try apply Lv.
  rewrite <- !app_assoc. cbn [app]. rewrite <- !app_assoc. reflexivity.
Qed.

Lemma kwarg_search_complete (keyword arg_str v : str) :
  kwarg_literal keyword arg_str v ->
  re_search_group (kwarg_opening keyword) (Plus notquote) (Chr isquote) arg_str
  <> None.
Proof.
  intros (pre & w1 & w2 & q1 & q2 & post & -> & H1 & H2 & Hq1 & Hq2 & Hv).
  unfold re_search_group. apply search_complete.
  replace (keyword ++ w1 ++ equals :: w2 ++ q1 :: v ++ q2 :: post)
    with ((keyword ++ w1 ++ equals :: w2 ++ [q1]) ++ v ++ [q2] ++ post).
  - apply match_group_complete.
    + apply kwarg_opening_lang. exists w1, w2, q1. auto.
    + exact Hv.
    + exists q2. auto.
  - rewrite <- !app_assoc. cbn [app]. rewrite <- !app_assoc. reflexivity.
Qed.

Lemma bare_match_sound (arg_str v : str) :
  re_search_group_bos bare_opening (Plus notquote) (Chr isquote) arg_str
  = Some v ->
  bare_literal arg_str v.
Proof.
  unfold re_search_group_bos. intro H.
  apply match_group_sound in H as (w0 & w2 & post & -> & L0 & Lv & L2).
  apply bare_opening_lang in L0 as (ws & q1 & -> & Hws & Hq1).
  cbn [Lang] in L2. destruct L2 as (q2 & -> & Hq2).
  exists ws, q1, q2, post. repeat split; auto; try apply Lv.
  rewrite <- !app_assoc. reflexivity.
Qed.

Lemma bare_match_complete (arg_str v : str) :
  bare_literal arg_str v ->
  re_search_group_bos bare_opening (Plus notquote) (Chr isquote) arg_str
  <> None.
Proof.
  intros (ws & q1 & q2 & post & -> & Hws & Hq1 & Hq2 & Hv).
  unfold re_search_group_bos.
  replace (ws ++ q1 :: v ++ q2 :: post)
    with ((ws ++ [q1]) ++ v ++ [q2] ++ post)
    by (rewrite <- !app_assoc; reflexivity).
  apply match_group_complete.
  - apply bare_opening_lang. exists ws, q1. auto.
  - exact Hv.
  - exists q2. auto.
Qed.

(** The first character outside a class splits a text in one way only. *)
Lemma span_unique (p : char -> bool) (l1 : str) :
  forall (l2 : str) (x y : char) (r1 r2 : str),
    forallb p l1 = true -> forallb p l2 = true ->
    p x = false -> p y = false ->
    l1 ++ x :: r1 = l2 ++ y :: r2 ->
    l1 = l2 /\ x = y /\ r1 = r2.
Proof.
  induction l1 as [|a l1 IH]; intros [|b l2] x y r1 r2 H1 H2 Hx Hy E;
    simpl in *.
  - injection E as -> ->. auto.
  - injection E as -> _. apply andb_prop in H2 as [H2 _]. congruence.
  - injection E as -> _. apply andb_prop in H1 as [H1 _]. congruence.
  - injection E as -> E. apply andb_prop in H1 as [_ H1].
    apply andb_prop in H2 as [_ H2].
    destruct (IH _ _ _ _ _ H1 H2 Hx Hy E) as (-> & -> & ->). auto.
Qed.

Lemma isquote_cases (c : char) : isquote c = true -> c = dquote \/ c = squote.
Proof.
  unfold isquote. rewrite orb_true_iff, !is_char_true. tauto.
Qed.

Lemma quote_not_space (c : char) : isquote c = true -> isspace c = false.
Proof. intro H. destruct (isquote_cases _ H) as [->| ->]; reflexivity. Qed.

Lemma space_not_quote (c : char) : isspace c = true -> notquote c = true.
Proof.
  intro H. unfold notquote. destruct (isquote c) eqn:Q; [|reflexivity].
  apply quote_not_space in Q. congruence.
Qed.

Lemma spaces_not_quotes (w : str) : spaces w -> forallb notquote w = true.
Proof.
  unfold spaces. rewrite !forallb_forall. intros H c Hc.
  apply space_not_quote. now apply H.
Qed.

Lemma quote_not_notquote (c : char) : isquote c = true -> notquote c = false.
Proof. unfold notquote. now intros ->. Qed.

Lemma bare_literal_unique (arg_str v v' : str) :
  bare_literal arg_str v -> bare_literal arg_str v' -> v = v'.
Proof.
  intros (w & q1 & q2 & post & -> & Hw & Hq1 & Hq2 & _ & Hv)
         (w' & q1' & q2' & post' & E & Hw' & Hq1' & Hq2' & _ & Hv').
  apply (span_unique isspace) in E as (_ & _ & E);
    auto using quote_not_space.
  apply (span_unique notquote) in E as (E & _ & _);
    auto using quote_not_notquote.
Qed.

Lemma literal_body_cons (v : str) :
  literal_body v -> exists c p, v = c :: p.
Proof. intros [Hne _]. destruct v as [|c p]; [contradiction|eauto]. Qed.

Lemma resolve_path_cases (a : str) :
  ((exists v, kwarg_literal (lit "path") a v) ->
   kwarg_literal (lit "path") a (resolve_path a))
  /\ (~ (exists v, kwarg_literal (lit "path") a v) ->
      forall v, bare_literal a v -> resolve_path a = v)
  /\ (~ (exists v, kwarg_literal (lit "path") a v) ->
      ~ (exists v, bare_literal a v) ->
      resolve_path a = lit "UNKNOWN").
Proof.
  unfold resolve_path, extract_string_arg.
  change (str_eqb (lit "path") (lit "path")) with true. cbv iota.
  destruct (re_search_group (kwarg_opening (lit "path")) _ _ a) as [v|] eqn:K.
  - apply kwarg_search_sound in K.
    assert (B : literal_body v) by (destruct K as (? & ? & ? & ? & ? & ? & K); apply K).
    destruct (literal_body_cons B) as (c & p & ->).
    split; [intros _; exact K|].
    split; intro N; exfalso; apply N; eauto.
  - split.
    { intros [v Hv]. apply kwarg_search_complete in Hv. contradiction. }
    destruct (re_search_group_bos bare_opening _ _ a) as [v|] eqn:B.
    + apply bare_match_sound in B.
      assert (Bv : literal_body v) by (destruct B as (? & ? & ? & ? & B); apply B).
      destruct (literal_body_cons Bv) as (c & p & ->).
      split.
      * intros _ v' Hv'. exact (bare_literal_unique B Hv').
      * intros _ N. exfalso. apply N. eauto.
    + split.
      * intros _ v Hv. apply bare_match_complete in Hv. contradiction.
      * reflexivity.
Qed.



(** The generic route form with a leading literal alone takes the literal
    as its path. *)
Example route_form_takes_leading_literal :
  exists r,
    analyze_site isdecimal_ascii (lit "main.py")
                 (lit "@app.route(" ++ quoted "/x" ++ [rparen]) ROUTE_site
    = Ok r
    /\ method r = lit "ROUTE" /\ path r = lit "/x".
Proof. eexists. repeat split. Qed.

(** ** Empty path literals *)

Lemma kwarg_path_needs_p (c : char) (s : str) :
  c <> ch "p" ->
  match_group (kwarg_opening (lit "path")) (Plus notquote) (Chr isquote) (c :: s)
  = None.
Proof.
  intro Hc. unfold match_group, kwarg_opening. cbn [rmatch].
  cbn [lit list_ascii_of_string map strip_prefix].
  destruct (N.eqb_spec (N_of_ascii "p") c) as [E|_]; [|reflexivity].
  exfalso. apply Hc. symmetry. exact E.
Qed.

Lemma no_body_after_quote (q2 : char) (rest v tail : str) :
  isquote q2 = true -> literal_body v -> q2 :: rest = v ++ tail -> False.
Proof.
  intros Hq [Hne Hv] E. destruct v as [|c v]; [contradiction|].
  simpl in E, Hv. injection E as <- _.
  apply andb_prop in Hv as [Hc _]. unfold notquote in Hc.
  rewrite Hq in Hc. discriminate.
Qed.

Lemma kwarg_path_fails_at_empty_literal (l : str) (q1 q2 : char) (rest : str) :
  forallb notquote l = true -> isquote q1 = true -> isquote q2 = true ->
  match_group (kwarg_opening (lit "path")) (Plus notquote) (Chr isquote)
              (l ++ q1 :: q2 :: rest)
  = None.
Proof.
  intros Hl Hq1 Hq2.
  destruct (match_group _ _ _ _) as [v|] eqn:M; [exfalso|reflexivity].
  apply match_group_sound in M as (w0 & w2 & post & E & L0 & Lv & _).
  apply kwarg_opening_lang in L0 as (w1 & w3 & q & -> & H1 & H3 & Hq).
  replace ((lit "path" ++ w1 ++ equals :: w3 ++ [q]) ++ v ++ w2 ++ post)
    with ((lit "path" ++ w1 ++ equals :: w3) ++ q :: v ++ w2 ++ post) in E
    by (rewrite <- !app_assoc; cbn [app]; rewrite <- !app_assoc; reflexivity).
  apply (span_unique notquote) in E as (_ & _ & E);
    auto using quote_not_notquote.
  - exact (no_body_after_quote _ Hq2 Lv E).
  - rewrite !forallb_app. cbn [forallb].
    rewrite (spaces_not_quotes H1), (spaces_not_quotes H3). reflexivity.
Qed.

Lemma bare_fails_at_empty_literal (l : str) (q1 q2 : char) (rest : str) :
  forallb notquote l = true -> isquote q1 = true -> isquote q2 = true ->
  re_search_group_bos bare_opening (Plus notquote) (Chr isquote)
                      (l ++ q1 :: q2 :: rest)
  = None.
Proof.
  intros Hl Hq1 Hq2. unfold re_search_group_bos.
  destruct (match_group _ _ _ _) as [v|] eqn:M; [exfalso|reflexivity].
  apply match_group_sound in M as (w0 & w2 & post & E & L0 & Lv & _).
  apply bare_opening_lang in L0 as (ws & q & -> & Hws & Hq).
  rewrite <- app_assoc in E. cbn [app] in E.
  apply (span_unique notquote) in E as (_ & _ & E);
    auto using quote_not_notquote, spaces_not_quotes.
  exact (no_body_after_quote _ Hq2 Lv E).
Qed.

Lemma kwarg_path_search_past_empty_literal (l : str) (q1 q2 : char) (rest : str) :
  forallb notquote l = true -> isquote q1 = true -> isquote q2 = true ->
  re_search_group (kwarg_opening (lit "path")) (Plus notquote) (Chr isquote)
                  (l ++ q1 :: q2 :: rest)
  = re_search_group (kwarg_opening (lit "path")) (Plus notquote) (Chr isquote)
                    rest.
Proof.
  intros Hl Hq1 Hq2. unfold re_search_group.
  induction l as [|c l IH].
  - cbn [app]. rewrite search_skip
      by exact (kwarg_path_fails_at_empty_literal [] _ _ _ eq_refl Hq1 Hq2).
    apply search_skip. apply kwarg_path_needs_p.
    destruct (isquote_cases _ Hq2) as [->| ->]; discriminate.
  - cbn [app]. rewrite search_skip
      by exact (kwarg_path_fails_at_empty_literal (c :: l) _ _ _ Hl Hq1 Hq2).
    apply IH. simpl in Hl. now apply andb_prop in Hl.
Qed.

Lemma resolve_path_empty_literal (l : str) (q1 q2 : char) (rest : str) :
  forallb notquote l = true -> isquote q1 = true -> isquote q2 = true ->
  ~ (exists v, kwarg_literal (lit "path") rest v) ->
  resolve_path (l ++ q1 :: q2 :: rest) = lit "UNKNOWN".
Proof.
  intros Hl Hq1 Hq2 Hrest. unfold resolve_path, extract_string_arg.
  rewrite kwarg_path_search_past_empty_literal by assumption.
  destruct (re_search_group _ _ _ rest) as [v|] eqn:K.
  - exfalso. apply Hrest. exists v. now apply kwarg_search_sound.
  - change (str_eqb (lit "path") (lit "path")) with true. cbv iota.
    now rewrite bare_fails_at_empty_literal.
Qed.


(** ** The decorator pattern *)

Lemma first_alt_sound (A : Type) (alts : list regex) (s : str)
      (k : str -> str -> option A) (a : A) :
  first_alt alts s k = Some a ->
  exists r, In r alts /\ rmatch r s k = Some a.
Proof.
  induction alts as [|r alts IH]; simpl; [discriminate|].
  destruct (rmatch r s k) as [a'|] eqn:E.
  - intro H. injection H as ->. exists r. auto.
  - intro H. destruct (IH H) as (r' & Hin & Hr). exists r'. auto.
Qed.

Lemma first_alt_complete (A : Type) (alts : list regex) (r : regex) (s : str)
      (k : str -> str -> option A) :
  In r alts -> rmatch r s k <> None -> first_alt alts s k <> None.
Proof.
  induction alts as [|r' alts IH]; simpl; [contradiction|].
  intros [->|Hin] Hr.
  - destruct (rmatch r s k); [discriminate|contradiction].
  - destruct (rmatch r' s k); [discriminate|]. now apply IH.
Qed.

Lemma verb_letters_lang (l : list ascii) (v : str) :
  Lang (fold_right (fun a r => Seq (Chr (ci a)) r) (Lit []) l) v
  <-> Forall2 (fun a c => ci a c = true) l v.
Proof.
  revert v. induction l as [|a l IH]; intro v; cbn [fold_right Lang].
  - split; [intros ->; constructor|intro H; now inversion H].
  - split.
    + intros (w1 & w2 & -> & (c & -> & Hc) & H2).
      constructor; [exact Hc|]. now apply IH.
    + intro H. inversion H as [|a' c l' v' Hc Hv]; subst.
      exists [c], v'. repeat split; [eauto|]. now apply IH.
Qed.

Lemma route_head_lang (isword : char -> bool) (w0 : str) :
  Lang (ROUTE_HEAD isword) w0 <->
  exists w, w0 = at_sign :: w ++ [dot] /\ w <> [] /\ forallb isword w = true.
Proof.
  unfold ROUTE_HEAD. cbn [Lang]. split.
  - intros (x & y & -> & (c & -> & Hc) & w & z & -> & (Hne & Hw) & d & -> & Hd).
    apply is_char_true in Hc as ->. apply is_char_true in Hd as ->.
    exists w. auto.
  - intros (w & -> & Hne & Hw).
    exists [at_sign], (w ++ [dot]). repeat split.
    + exists at_sign. split; [reflexivity|]. now apply is_char_true.
    + exists w, [dot]. repeat split; auto.
      exists dot. split; [reflexivity|]. now apply is_char_true.
Qed.

Lemma route_tail_lang (w2 : str) :
  Lang ROUTE_TAIL w2 <-> exists ws, w2 = ws ++ [lparen] /\ spaces ws.
Proof.
  unfold ROUTE_TAIL. cbn [Lang]. split.
  - intros (ws & y & -> & Hws & c & -> & Hc).
    apply is_char_true in Hc as ->. exists ws. auto.
  - intros (ws & -> & Hws). exists ws, [lparen]. repeat split; [exact Hws|].
    exists lparen. split; [reflexivity|]. now apply is_char_true.
Qed.

Lemma route_match_sound (isword : char -> bool) (s v : str) (n : nat) :
  route_match isword s = Some (v, n) ->
  exists w ws rest,
    decorator_here isword s w v ws rest
    /\ n = (List.length w + List.length v + List.length ws + 3)%nat.
Proof.
  unfold route_match. intro H.
  apply rmatch_sound in H as (w0 & s1 & -> & L0 & H).
  apply first_alt_sound in H as (r & Hr & H).
  apply in_map_iff in Hr as (verb & <- & Hverb).
  apply rmatch_sound in H as (v' & s2 & -> & Lv & H).
  apply rmatch_sound in H as (w2 & rest & -> & L2 & H).
  injection H as -> <-.
  apply route_head_lang in L0 as (w & -> & Hne & Hw).
  apply route_tail_lang in L2 as (ws & -> & Hws).
  apply verb_letters_lang in Lv.
  exists w, ws, rest. split.
  - unfold decorator_here. repeat split; eauto.
    cbn [app]. rewrite <- !app_assoc. reflexivity.
  - cbn [List.length]. rewrite !length_app. cbn [List.length]. lia.
Qed.

Lemma route_match_complete (isword : char -> bool) (s w v ws rest : str) :
  decorator_here isword s w v ws rest -> route_match isword s <> None.
Proof.
  intros (-> & Hne & Hw & (verb & Hverb & Hv) & Hws). unfold route_match.
  replace (at_sign :: w ++ dot :: v ++ ws ++ lparen :: rest)
    with ((at_sign :: w ++ [dot]) ++ v ++ (ws ++ [lparen]) ++ rest)
    by (cbn [app]; rewrite <- !app_assoc; reflexivity).
  apply rmatch_complete; [apply route_head_lang; eauto|].
  apply first_alt_complete with (r := verb_regex verb).
  { apply in_map. exact Hverb. }
  apply rmatch_complete; [now apply verb_letters_lang|].
  apply rmatch_complete; [apply route_tail_lang; eauto|discriminate].
Qed.

(** X1.  [ROUTE_PATTERN] matches at an offset exactly when the text there
    is an at sign, one or more word characters, a dot, one of the nine verbs
    in any mix of cases, optional whitespace and an opening parenthesis. *)
Theorem route_pattern_matches_iff (isword : char -> bool) (s : str) :
  route_match isword s <> None
  <-> exists w v ws rest, decorator_here isword s w v ws rest.
Proof.
  split.
  - destruct (route_match isword s) as [[v n]|] eqn:E; [intros _|congruence].
    apply route_match_sound in E as (w & ws & rest & H & _). eauto.
  - intros (w & v & ws & rest & H). exact (route_match_complete H).
Qed.

Lemma finditer_from_spec (isword : char -> bool) (s : str) :
  forall (pos : Z) (skip : nat) (e : Z) (v : str),
    In (e, v) (finditer_from isword s pos skip) ->
    exists pre t n,
      s = pre ++ t /\ route_match isword t = Some (v, n)
      /\ e = (pos + len pre + Z.of_nat n)%Z.
Proof.
  induction s as [|c s IH]; intros pos skip e v H; [contradiction|].
  assert (K : forall k, In (e, v) (finditer_from isword s (pos + 1) k) ->
              exists pre t n,
                c :: s = pre ++ t /\ route_match isword t = Some (v, n)
                /\ e = (pos + len pre + Z.of_nat n)%Z).
  { intros k Hk. destruct (IH _ _ _ _ Hk) as (pre & t & n & -> & Ht & ->).
    exists (c :: pre), t, n. repeat split; auto.
    unfold len. cbn [List.length]. lia. }
  cbn [finditer_from] in H. destruct skip as [|k]; [|eauto].
  destruct (route_match isword (c :: s)) as [[v' n]|] eqn:M; [|eauto].
  destruct H as [H|H]; [|eauto].
  injection H as <- <-. exists [], (c :: s), n. repeat split; auto.
  unfold len. cbn [List.length]. lia.
Qed.

Lemma finditer_from_after (isword : char -> bool) (s : str) :
  forall (pos : Z) (skip : nat) (e : Z) (v : str),
    In (e, v) (finditer_from isword s pos skip) ->
    (pos + Z.of_nat skip < e)%Z.
Proof.
  induction s as [|c s IH]; intros pos skip e v H; [contradiction|].
  cbn [finditer_from] in H. destruct skip as [|k].
  - destruct (route_match isword (c :: s)) as [[v' n]|] eqn:M.
    + apply route_match_sound in M as (w & ws & rest & _ & Hn).
      destruct H as [H|H].
      * injection H as <- <-. lia.
      * apply IH in H. lia.
    + apply IH in H. lia.
  - apply IH in H. lia.
Qed.

Lemma finditer_from_sorted (isword : char -> bool) (s : str) :
  forall (pos : Z) (skip : nat),
    StronglySorted Z.lt (map fst (finditer_from isword s pos skip)).
Proof.
  induction s as [|c s IH]; intros pos skip; [constructor|].
  cbn [finditer_from]. destruct skip as [|k]; [|apply IH].
  destruct (route_match isword (c :: s)) as [[v n]|] eqn:M; [|apply IH].
  cbn [map fst]. constructor; [apply IH|].
  apply route_match_sound in M as (w & ws & rest & _ & Hn).
  apply Forall_forall. intros e He.
  apply in_map_iff in He as ([e' v'] & <- & He).
  apply finditer_from_after in He. cbn [fst]. lia.
Qed.

Lemma find_sites_in (isword : char -> bool) (content : str) (m : site) :
  In m (find_sites isword content) ->
  exists pre w v ws rest,
    content = pre ++ at_sign :: w ++ dot :: v ++ ws ++ lparen :: rest
    /\ decorator_here isword (at_sign :: w ++ dot :: v ++ ws ++ lparen :: rest)
                      w v ws rest
    /\ site_end m = len (pre ++ at_sign :: w ++ dot :: v ++ ws ++ [lparen])
    /\ site_method m = map upper_verb_char v.
Proof.
  unfold find_sites. intro H.
  apply in_map_iff in H as ([e v] & <- & H).
  apply finditer_from_spec in H as (pre & t & n & -> & M & ->).
  apply route_match_sound in M as (w & ws & rest & D & ->).
  pose proof D as (-> & _).
  exists pre, w, v, ws, rest.
  split; [reflexivity|]. split; [exact D|]. split; [|reflexivity].
  cbn [site_end fst]. unfold len.
  repeat (rewrite length_app || cbn [List.length]). lia.
Qed.

(** X2.  The matches of any text come left to right with strictly
    increasing end offsets, and each end offset lies within the text, just
    past an opening parenthesis. *)
Theorem find_sites_well_placed (isword : char -> bool) (content : str) :
  StronglySorted Z.lt (map site_end (find_sites isword content))
  /\ Forall (fun m => exists before rest,
                 content = before ++ lparen :: rest
                 /\ site_end m = (len before + 1)%Z
                 /\ (0 < site_end m <= len content)%Z)
            (find_sites isword content).
Proof.
  split.
  - unfold find_sites. rewrite map_map. cbn [site_end].
    apply finditer_from_sorted.
  - apply Forall_forall. intros m Hm.
    apply find_sites_in in Hm as (pre & w & v & ws & rest & -> & _ & He & _).
    exists (pre ++ at_sign :: w ++ dot :: v ++ ws), rest.
    split; [|split].
    + rewrite <- !app_assoc. cbn [app]. rewrite <- !app_assoc.
      cbn [app]. rewrite <- !app_assoc. reflexivity.
    + rewrite He. unfold len.
      repeat (rewrite length_app || cbn [List.length]). lia.
    + rewrite He. unfold len.
      repeat (rewrite length_app || cbn [List.length]). lia.
Qed.

Lemma find_sites_in_range (isword : char -> bool) (content : str) (m : site) :
  In m (find_sites isword content) -> (0 <= site_end m <= len content)%Z.
Proof.
  intro Hm.
  apply find_sites_in in Hm as (pre & w & v & ws & rest & -> & _ & He & _).
  rewrite He. unfold len.
  repeat (rewrite length_app || cbn [List.length]). lia.
Qed.

(** X3.  Whatever the texts of the files, the extraction ends without
    raising and gives exactly one record per match of the decorator
    pattern. *)
Theorem analyze_tree_never_raises
        (isword isdecimal : char -> bool) (files : list (str * str)) :
  exists rs,
    analyze_tree isword isdecimal files = Ok rs
    /\ List.length rs
       = list_sum (map (fun nt => List.length (find_sites isword (snd nt)))
                       files).
Proof.
  unfold analyze_tree.
  destruct (@analyze_routes_one_record_per_site isdecimal
              (map (fun nt => read_file isword (fst nt) (snd nt)) files))
    as (rs & Hrs & Hlen).
  - intros sf Hsf m Hm.
    apply in_map_iff in Hsf as (nt & <- & _).
    cbn [read_file sites content] in *. now apply find_sites_in_range in Hm.
  - exists rs. split; [exact Hrs|]. rewrite Hlen, map_map. reflexivity.
Qed.

Lemma ci_ascii_upper (a : ascii) (c : char) :
  (97 <= N_of_ascii a <= 122)%N -> ci a c = true -> (c < 128)%N ->
  upper_verb_char c = (N_of_ascii a - 32)%N.
Proof.
  intros Ha Hc H128. unfold ci in Hc. unfold upper_verb_char.
  cbv zeta in Hc.
  repeat match type of Hc with
         | (_ || _ = true) => apply orb_prop in Hc as [Hc|Hc]
         | (_ && _ = true) => apply andb_prop in Hc as [? Hc]
         end;
    apply N.eqb_eq in Hc; subst c; try lia.
  - replace ((97 <=? N_of_ascii a) && (N_of_ascii a <=? 122))%N with true;
      [reflexivity|].
    symmetry. apply andb_true_intro. split; apply N.leb_le; lia.
  - replace (97 <=? N_of_ascii a - 32)%N with false
      by (symmetry; apply N.leb_gt; lia).
    cbn [andb].
    replace (N_of_ascii a - 32 =? 383)%N with false
      by (symmetry; apply N.eqb_neq; lia).
    replace (N_of_ascii a - 32 =? 305)%N with false
      by (symmetry; apply N.eqb_neq; lia).
    reflexivity.
Qed.

Lemma ci_word_ascii_upper (l : list ascii) (v : str) :
  Forall (fun a => (97 <= N_of_ascii a <= 122)%N) l ->
  Forall2 (fun a c => ci a c = true) l v ->
  Forall (fun c => (c < 128)%N) v ->
  map upper_verb_char v = map (fun a => (N_of_ascii a - 32)%N) l.
Proof.
  intros Hl H. induction H as [|a c l v Hc _ IH]; intro Hv; [reflexivity|].
  inversion Hl; subst. inversion Hv; subst.
  cbn [map]. f_equal; [now apply ci_ascii_upper|now apply IH].
Qed.

(** X4.  In a text of ASCII characters only, the method of every match is
    one of the nine verb names in upper case. *)
Theorem ascii_methods_are_verbs
        (isword : char -> bool) (content : str) (m : site)
        (Hascii : Forall (fun c => (c < 128)%N) content)
        (Hm : In m (find_sites isword content)) :
  In (site_method m) METHODS.
Proof.
  apply find_sites_in in Hm
    as (pre & w & v & ws & rest & -> & D & _ & ->).
  destruct D as (_ & _ & _ & (verb & Hverb & Hv) & _).
  assert (Av : Forall (fun c => (c < 128)%N) v).
  { rewrite Forall_app in Hascii. destruct Hascii as [_ H].
    inversion H as [|? ? _ H1]; subst.
    rewrite Forall_app in H1. destruct H1 as [_ H1].
    inversion H1 as [|? ? _ H2]; subst.
    rewrite Forall_app in H2. now destruct H2. }
  unfold ci_word in Hv.
  assert (L : Forall (fun a => (97 <= N_of_ascii a <= 122)%N)
                     (list_ascii_of_string verb)).
  { unfold VERBS in Hverb. cbn [In] in Hverb.
    repeat (destruct Hverb as [<-|Hverb];
            [repeat constructor; cbv; intro; discriminate|]).
    contradiction. }
  rewrite (ci_word_ascii_upper L Hv Av).
  unfold VERBS in Hverb. cbn [In] in Hverb. unfold METHODS.
  repeat (destruct Hverb as [<-|Hverb]; [cbv; tauto|]).
  contradiction.
Qed.

Lemma ascii_methods_are_verbs_witness :
  exists m,
    Forall (fun c => (c < 128)%N) two_decorators
    /\ In m (find_sites isword_ascii two_decorators)
    /\ site_method m = lit "POST"
    /\ In (site_method m) METHODS.
Proof.
  assert (A : Forall (fun c => (c < 128)%N) two_decorators)
    by (repeat constructor).
  exists {| site_end := 30; site_method := lit "POST" |}.
  assert (I : In {| site_end := 30; site_method := lit "POST" |}
                 (find_sites isword_ascii two_decorators))
    by (right; left; reflexivity).
  split; [exact A|]. split; [exact I|]. split; [reflexivity|].
  exact (@ascii_methods_are_verbs isword_ascii two_decorators _ A I).
Defined.

(** ** The argument text of a record *)

Lemma dropwhile_split (p : char -> bool) (l : str) :
  exists x, l = x ++ dropwhile p l /\ forallb p x = true.
Proof.
  induction l as [|c l (x & E & Hx)]; [exists []; auto|].
  simpl. destruct (p c) eqn:Hc.
  - exists (c :: x). simpl. rewrite Hc, Hx. split; [now f_equal|reflexivity].
  - exists []. auto.
Qed.

Lemma dropwhile_head (p : char -> bool) (l : str) (c : char) (t : str) :
  dropwhile p l = c :: t -> p c = false.
Proof.
  induction l as [|x l IH]; simpl; [discriminate|].
  destruct (p x) eqn:Hx; [exact IH|].
  intro H. now injection H as <- _.
Qed.

Lemma forallb_rev (p : char -> bool) (l : str) :
  forallb p l = true -> forallb p (rev l) = true.
Proof.
  rewrite !forallb_forall. intros H c Hc. apply H. now apply in_rev.
Qed.

Lemma strip_decompose (s : str) :
  exists a b, s = a ++ strip s ++ b /\ spaces a /\ spaces b.
Proof.
  unfold strip, rstrip, lstrip.
  destruct (dropwhile_split isspace s) as (a & Ea & Ha).
  destruct (dropwhile_split isspace (rev (dropwhile isspace s)))
    as (x & Ex & Hx).
  exists a, (rev x). split; [|split; [exact Ha|now apply forallb_rev]].
  rewrite <- rev_app_distr, <- Ex, rev_involutive. exact Ea.
Qed.

Lemma strip_head (s : str) (c : char) (t : str) :
  strip s = c :: t -> isspace c = false.
Proof.
  intro H. unfold strip, rstrip in H.
  destruct (dropwhile_split isspace (rev (lstrip s))) as (x & Ex & _).
  apply (f_equal (@rev char)) in Ex.
  rewrite rev_involutive, rev_app_distr, H in Ex.
  unfold lstrip in Ex. cbn [app] in Ex.
  exact (@dropwhile_head _ _ _ _ Ex).
Qed.

Lemma strip_last (s : str) (t : str) (c : char) :
  strip s = t ++ [c] -> isspace c = false.
Proof.
  intro H. unfold strip, rstrip in H.
  apply (f_equal (@rev char)) in H.
  rewrite rev_involutive, rev_app_distr in H. cbn [rev app] in H.
  exact (@dropwhile_head _ _ _ _ H).
Qed.

Lemma dropwhile_fixed (p : char -> bool) (c : char) (t : str) :
  p c = false -> dropwhile p (c :: t) = c :: t.
Proof. intro H. simpl. now rewrite H. Qed.

Lemma strip_idempotent (s : str) : strip (strip s) = strip s.
Proof.
  destruct (strip s) as [|c t] eqn:E; [reflexivity|].
  pose proof (strip_head _ E) as Hc.
  destruct (exists_last (l := c :: t) ltac:(discriminate)) as (t' & c' & E').
  assert (Hc' : isspace c' = false)
    by (apply (@strip_last s t' c'); congruence).
  unfold strip, rstrip, lstrip. rewrite (@dropwhile_fixed isspace c t Hc).
  rewrite E', rev_app_distr. cbn [rev app].
  rewrite (@dropwhile_fixed isspace c' (rev t') Hc').
  change (c' :: rev t') with (rev [c'] ++ rev t').
  now rewrite <- rev_app_distr, rev_involutive.
Qed.

Lemma py_slice_infix (s : str) (a b : Z) :
  exists x y, s = x ++ py_slice s a b ++ y.
Proof.
  unfold py_slice.
  exists (firstn (Z.to_nat (slice_bound s a)) s),
         (skipn (Z.to_nat (slice_bound s b - slice_bound s a))
                (skipn (Z.to_nat (slice_bound s a)) s)).
  now rewrite !firstn_skipn.
Qed.

Lemma analyze_site_args (isdecimal : char -> bool) (f c : str) (m : site)
      (r : route) :
  analyze_site isdecimal f c m = Ok r ->
  exists i, decorator_args r = strip (py_slice c (site_end m) i).
Proof.
  unfold analyze_site.
  destruct (scan_parens _ _ _ _) as [[i d]| |]; try discriminate.
  intro H. injection H as <-. cbn [decorator_args]. eauto.
Qed.

(** X5.  The argument text of every record is a contiguous piece of the
    text of the file, and it neither begins nor ends with whitespace; so a
    leading literal taken as the path starts at its very first
    character. *)
Theorem args_trimmed_piece_of_text
        (isdecimal : char -> bool) (f c : str) (m : site) (r : route)
        (H : analyze_site isdecimal f c m = Ok r) :
  let a := decorator_args r in
  (exists x y, c = x ++ a ++ y)
  /\ (forall h t, a = h :: t -> isspace h = false)
  /\ (forall t l, a = t ++ [l] -> isspace l = false)
  /\ strip a = a
  /\ (forall v, bare_literal a v ->
                exists q1 q2 post,
                  a = q1 :: v ++ q2 :: post
                  /\ isquote q1 = true /\ isquote q2 = true).
Proof.
  intro a. destruct (analyze_site_args _ _ _ _ H) as (i & Ha).
  fold a in Ha.
  split.
  { destruct (py_slice_infix c (site_end m) i) as (x & y & E).
    destruct (strip_decompose (py_slice c (site_end m) i))
      as (u & w & E' & _).
    rewrite <- Ha in E'. rewrite E' in E.
    exists (x ++ u), (w ++ y). rewrite E at 1.
    rewrite <- !app_assoc. reflexivity. }
  assert (Hh : forall h t, a = h :: t -> isspace h = false).
  { intros h t E. apply (@strip_head (py_slice c (site_end m) i) h t).
    congruence. }
  split; [exact Hh|].
  split.
  { intros t l E. apply (@strip_last (py_slice c (site_end m) i) t l).
    congruence. }
  split; [rewrite Ha; apply strip_idempotent|].
  intros v (w & q1 & q2 & post & E & Hw & Hq1 & Hq2 & _).
  destruct w as [|h w].
  - exists q1, q2, post. auto.
  - exfalso. cbn [app] in E. apply Hh in E.
    unfold spaces in Hw. cbn [forallb] in Hw.
    apply andb_prop in Hw as [Hw _]. congruence.
Qed.

Lemma args_trimmed_piece_of_text_witness :
  exists r,
    analyze_site isdecimal_ascii (lit "main.py") padded_decl GET_site = Ok r
    /\ decorator_args r = quoted "/x"
    /\ strip (decorator_args r) = decorator_args r.
Proof.
  eexists. split; [reflexivity|]. split; [reflexivity|].
  apply (@args_trimmed_piece_of_text isdecimal_ascii (lit "main.py")
           padded_decl GET_site).
  reflexivity.
Defined.

(** ** What [extract_string_arg] gives back *)

Lemma str_eqb_eq (a b : str) : str_eqb a b = true <-> a = b.
Proof.
  revert b. induction a as [|x a IH]; intros [|y b]; simpl;
    try (split; [discriminate|discriminate]); [tauto|].
  rewrite andb_true_iff, N.eqb_eq, IH. split; [intros [-> ->]|intro H].
  - reflexivity.
  - now injection H.
Qed.

Lemma extract_string_arg_cases (a keyword v : str) :
  extract_string_arg a keyword = Some v ->
  kwarg_literal keyword a v \/ (keyword = lit "path" /\ bare_literal a v).
Proof.
  unfold extract_string_arg.
  destruct (re_search_group (kwarg_opening keyword) _ _ a) as [v'|] eqn:K.
  - intro H. injection H as <-. left. now apply kwarg_search_sound.
  - destruct (str_eqb keyword (lit "path")) eqn:P; [|discriminate].
    apply str_eqb_eq in P.
    destruct (re_search_group_bos bare_opening _ _ a) as [v'|] eqn:B;
      [|discriminate].
    intro H. injection H as <-. right. split; [exact P|].
    now apply bare_match_sound.
Qed.

Lemma kwarg_literal_body (keyword a v : str) :
  kwarg_literal keyword a v -> literal_body v.
Proof. intros (? & ? & ? & ? & ? & ? & H). apply H. Qed.

Lemma bare_literal_body (a v : str) : bare_literal a v -> literal_body v.
Proof. intros (? & ? & ? & ? & H). apply H. Qed.

(** X6.  The path of every record is non-empty and holds no quote
    character: it is the sentinel UNKNOWN or a value [extract_string_arg]
    gave, and such a value is never empty, so the default replaces a
    missing value only. *)
Theorem path_never_empty
        (isdecimal : char -> bool) (f c : str) (m : site) (r : route)
        (H : analyze_site isdecimal f c m = Ok r) :
  path r <> []
  /\ forallb notquote (path r) = true
  /\ (extract_string_arg (decorator_args r) (lit "path") = Some (path r)
      \/ (extract_string_arg (decorator_args r) (lit "path") = None
          /\ path r = lit "UNKNOWN")).
Proof.
  destruct (analyze_site_fields _ _ _ _ H) as (_ & _ & -> & _).
  unfold resolve_path.
  destruct (extract_string_arg (decorator_args r) (lit "path")) as [v|] eqn:E.
  - assert (B : literal_body v).
    { destruct (extract_string_arg_cases _ _ E) as [K|[_ K]].
      - exact (kwarg_literal_body K).
      - exact (bare_literal_body K). }
    destruct B as [Hne Hv]. destruct v as [|x v]; [contradiction|].
    split; [discriminate|]. split; [exact Hv|]. now left.
  - split; [discriminate|]. split; [reflexivity|]. now right.
Qed.

Lemma path_never_empty_witness :
  exists r,
    analyze_site isdecimal_ascii (lit "main.py") unclosed_decl GET_site = Ok r
    /\ path r = lit "UNKNOWN"
    /\ path r <> [].
Proof.
  eexists. split; [reflexivity|]. split; [reflexivity|].
  apply (@path_never_empty isdecimal_ascii (lit "main.py") unclosed_decl
           GET_site).
  reflexivity.
Defined.




Lemma kwarg_here_complete (keyword t v : str) :
  kwarg_literal_here keyword t v ->
  match_group (kwarg_opening keyword) (Plus notquote) (Chr isquote) t <> None.
Proof.
  intros (w1 & w2 & q1 & q2 & post & -> & H1 & H2 & Hq1 & Hq2 & Hv).
  replace (keyword ++ w1 ++ equals :: w2 ++ q1 :: v ++ q2 :: post)
    with ((keyword ++ w1 ++ equals :: w2 ++ [q1]) ++ v ++ [q2] ++ post).
  - apply match_group_complete.
    + apply kwarg_opening_lang. exists w1, w2, q1. auto.
    + exact Hv.
    + exists q2. auto.
  - rewrite <- !app_assoc. cbn [app]. rewrite <- !app_assoc. reflexivity.
Qed.






(** X9.  For a plain keyword, the keyword flag can only turn true as text
    is added before or after the text, and it is true whenever the text
    holds an assignment of a quoted literal to that keyword. *)
Theorem flag_follows_text (a keyword : str) (Hplain : plain_name keyword) :
  (has_kwarg a keyword = true ->
   forall x y, has_kwarg (x ++ a ++ y) keyword = true)
  /\ (forall v, kwarg_literal keyword a v -> has_kwarg a keyword = true).
Proof.
  split.
  - intros H x y. apply has_kwarg_token in H as (pre & w & post & -> & Hw).
    apply has_kwarg_token. exists (x ++ pre), w, (post ++ y).
    split; [|exact Hw].
    repeat (rewrite <- app_assoc; cbn [app]). reflexivity.
  - intros v (pre & w1 & w2 & q1 & q2 & post & -> & H1 & _).
    apply has_kwarg_token.
    exists pre, w1, (w2 ++ q1 :: v ++ q2 :: post). auto.
Qed.

Lemma flag_follows_text_witness :
  has_kwarg (lit "tags=[]") (lit "tags") = true
  /\ has_kwarg (quoted "/x" ++ lit ", " ++ lit "tags=[]" ++ lit ", summary=s")
               (lit "tags") = true
  /\ has_kwarg (lit "tags=" ++ quoted "a") (lit "tags") = true.
Proof.
  destruct (@flag_follows_text (lit "tags=[]") (lit "tags") eq_refl)
    as [Hmono _].
  destruct (@flag_follows_text (lit "tags=" ++ quoted "a") (lit "tags") eq_refl)
    as [_ Hlit].
  split; [reflexivity|]. split.
  - apply (Hmono eq_refl (quoted "/x" ++ lit ", ") (lit ", summary=s")).
  - apply (Hlit (lit "a")).
    exists [], [], [], dquote, dquote, [].
    repeat split; try reflexivity. discriminate.
Defined.

(** ** Records and the text around them *)

Lemma closed_site_args (isdecimal : char -> bool) (f pre inner post : str)
      (m : site) :
  site_end m = len pre -> closed_by_next inner ->
  exists r,
    analyze_site isdecimal f (pre ++ inner ++ rparen :: post) m = Ok r
    /\ decorator_args r = strip inner.
Proof.
  intros Hm [Hopen Hbal]. unfold analyze_site. rewrite Hm.
  rewrite scan_from_offset by lia.
  rewrite scan_rest_closed;
    [| intros k Hk; specialize (Hopen k Hk); lia | lia].
  eexists. split; [reflexivity|]. cbn [decorator_args]. f_equal.
  replace (len pre + len inner + 1 - 1)%Z with (len pre + len inner)%Z by lia.
  apply py_slice_middle.
Qed.

(** C5.  For every argument text and each of the four keyword names
    (response_model, tags, summary, description), [has_kwarg] is true
    exactly when the text contains, anywhere, that name followed by
    optional whitespace and an equals sign, whatever is assigned; the four
    flags of every record are [has_kwarg] of its argument text; and the
    record of a site whose argument list closes has each flag true exactly
    when the text between its parentheses, stripped, contains that token. *)
Theorem keyword_flags_iff_token
        (isdecimal : char -> bool) (f pre inner post : str) (m : site)
        (Hm : site_end m = len pre)
        (Hc : closed_by_next inner) :
  (forall arg_str,
      (has_kwarg arg_str (lit "response_model") = true
       <-> kwarg_token (lit "response_model") arg_str)
      /\ (has_kwarg arg_str (lit "tags") = true
          <-> kwarg_token (lit "tags") arg_str)
      /\ (has_kwarg arg_str (lit "summary") = true
          <-> kwarg_token (lit "summary") arg_str)
      /\ (has_kwarg arg_str (lit "description") = true
          <-> kwarg_token (lit "description") arg_str))
  /\ (forall f' c' m' r',
        analyze_site isdecimal f' c' m' = Ok r' ->
        has_response_model r' = has_kwarg (decorator_args r') (lit "response_model")
        /\ has_tags r' = has_kwarg (decorator_args r') (lit "tags")
        /\ has_summary r' = has_kwarg (decorator_args r') (lit "summary")
        /\ has_description r'
           = has_kwarg (decorator_args r') (lit "description"))
  /\ exists r,
      analyze_site isdecimal f (pre ++ inner ++ rparen :: post) m = Ok r
      /\ decorator_args r = strip inner
      /\ (has_response_model r = true
          <-> kwarg_token (lit "response_model") (strip inner))
      /\ (has_tags r = true <-> kwarg_token (lit "tags") (strip inner))
      /\ (has_summary r = true <-> kwarg_token (lit "summary") (strip inner))
      /\ (has_description r = true
          <-> kwarg_token (lit "description") (strip inner)).
Proof.
  split; [intro arg_str; repeat split; apply has_kwarg_token|].
  split.
  { intros f' c' m' r' H.
    destruct (analyze_site_fields _ _ _ _ H) as (_ & _ & _ & _ & H'). exact H'. }
  destruct (@closed_site_args isdecimal f pre inner post m Hm Hc)
    as (r & Hr & Ha).
  exists r. split; [exact Hr|]. split; [exact Ha|].
  destruct (analyze_site_fields _ _ _ _ Hr)
    as (_ & _ & _ & _ & -> & -> & -> & ->).
  rewrite Ha. repeat split; apply has_kwarg_token.
Qed.

Lemma keyword_flags_iff_token_witness :
  exists r,
    analyze_site isdecimal_ascii (lit "main.py") orders_decl GET_site = Ok r
    /\ decorator_args r = orders_args
    /\ has_response_model r = true
    /\ has_tags r = true
    /\ has_summary r = false
    /\ has_description r = false
    /\ kwarg_token (lit "response_model") orders_args
    /\ kwarg_token (lit "tags") orders_args
    /\ ~ kwarg_token (lit "summary") orders_args
    /\ ~ kwarg_token (lit "description") orders_args.
Proof.
  destruct (@keyword_flags_iff_token isdecimal_ascii (lit "main.py")
              (lit "@app.get(") orders_args (lit " def orders(): pass")
              GET_site eq_refl)
    as (_ & _ & r & Hr & Ha & H1 & H2 & H3 & H4).
  { split; [apply open_throughoutb_true|]; reflexivity. }
  assert (E : Ok r = analyze_site isdecimal_ascii (lit "main.py") orders_decl
                                  GET_site) by (symmetry; exact Hr).
  cbv in E. injection E as ->.
  change (strip orders_args) with orders_args in H1, H2, H3, H4.
  eexists. split; [reflexivity|].
  split; [reflexivity|].
  split; [reflexivity|]. split; [reflexivity|].
  split; [reflexivity|]. split; [reflexivity|].
  split; [apply H1; reflexivity|]. split; [apply H2; reflexivity|].
  split; [intro K; apply H3 in K; discriminate|].
  intro K; apply H4 in K; discriminate.
Defined.

(** X10.  A record whose argument list closes depends on the text between
    its parentheses only: the text before the decorator and the text after
    the closing parenthesis change neither its path, nor its flags, nor its
    argument text, nor its score. *)
Theorem record_is_local
        (isdecimal : char -> bool) (f f' pre pre' inner post post' : str)
        (m m' : site)
        (Hm : site_end m = len pre) (Hm' : site_end m' = len pre')
        (Hc : closed_by_next inner) :
  exists r r',
    analyze_site isdecimal f (pre ++ inner ++ rparen :: post) m = Ok r
    /\ analyze_site isdecimal f' (pre' ++ inner ++ rparen :: post') m' = Ok r'
    /\ decorator_args r = decorator_args r'
    /\ path r = path r'
    /\ versioned r = versioned r'
    /\ has_response_model r = has_response_model r'
    /\ has_tags r = has_tags r'
    /\ has_summary r = has_summary r'
    /\ has_description r = has_description r'
    /\ score (score_route r) = score (score_route r')
    /\ penalties (score_route r) = penalties (score_route r').
Proof.
  destruct (@closed_site_args isdecimal f pre inner post m Hm Hc) as (r & Hr & Ha).
  destruct (@closed_site_args isdecimal f' pre' inner post' m' Hm' Hc)
    as (r' & Hr' & Ha').
  exists r, r'. split; [exact Hr|]. split; [exact Hr'|].
  destruct (analyze_site_fields _ _ _ _ Hr)
    as (_ & _ & Hp & Hv & H1 & H2 & H3 & H4).
  destruct (analyze_site_fields _ _ _ _ Hr')
    as (_ & _ & Hp' & Hv' & H1' & H2' & H3' & H4').
  assert (E : decorator_args r = decorator_args r') by congruence.
  assert (P : path r = path r') by congruence.
  assert (V : versioned r = versioned r') by congruence.
  assert (E1 : has_response_model r = has_response_model r') by congruence.
  assert (E2 : has_tags r = has_tags r') by congruence.
  assert (E3 : has_summary r = has_summary r') by congruence.
  assert (E4 : has_description r = has_description r') by congruence.
  repeat (split; [assumption|]).
  unfold score_route. cbn [score penalties].
  rewrite V, E1, E2, E3, E4. split; reflexivity.
Qed.

Lemma record_is_local_witness :
  exists r r',
    analyze_site isdecimal_ascii (lit "a.py")
                 (lit "@app.get(" ++ nested_args ++ rparen :: lit " def h(): pass")
                 GET_site = Ok r
    /\ analyze_site isdecimal_ascii (lit "b.py")
                    (lit "# x @r.get(" ++ nested_args ++ rparen :: [])
                    ROUTE_site = Ok r'
    /\ decorator_args r = decorator_args r'
    /\ path r = path r'.
Proof.
  destruct (@record_is_local isdecimal_ascii (lit "a.py") (lit "b.py")
              (lit "@app.get(") (lit "# x @r.get(") nested_args
              (lit " def h(): pass") [] GET_site ROUTE_site eq_refl eq_refl)
    as (r & r' & H & H' & Ha & Hp & _).
  - split; [apply open_throughoutb_true|]; reflexivity.
  - exists r, r'. auto.
Defined.

Lemma collect_forall2 (A B : Type) (f : A -> result B) (l : list A) :
  forall ys, collect f l = Ok ys -> Forall2 (fun x y => f x = Ok y) l ys.
Proof.
  induction l as [|x l IH]; intros ys H; simpl in H.
  - injection H as <-. constructor.
  - destruct (f x) as [y| |] eqn:E; try discriminate.
    destruct (collect f l) as [ys'| |]; try discriminate.
    injection H as <-. constructor; auto.
Qed.

(** X11.  The records come in the order of the walk and, within a file, in
    the order of the matches: the list of records is, element by element,
    the list of the matches of the files, file after file, each record being
    the one its match yields, with the file and the method of that match. *)
Theorem records_follow_matches
        (isdecimal : char -> bool) (files : list source_file)
        (rs : list route)
        (H : analyze_routes isdecimal files = Ok rs) :
  Forall2 (fun fm r =>
             analyze_site isdecimal (rel_path (fst fm)) (content (fst fm))
                          (snd fm) = Ok r
             /\ file r = rel_path (fst fm)
             /\ method r = site_method (snd fm))
          (flat_map (fun sf => map (pair sf) (sites sf)) files) rs
  /\ map (fun r => (file r, method r)) rs
     = flat_map (fun sf => map (fun m => (rel_path sf, site_method m)) (sites sf))
                files.
Proof.
  unfold analyze_routes in H.
  destruct (collect (analyze_file isdecimal) files) as [rss| |] eqn:C;
    try discriminate.
  injection H as <-. apply collect_forall2 in C.
  induction C as [|sf rs0 files rss Hsf _ [IH1 IH2]]; [split; constructor|].
  cbn [List.concat flat_map]. rewrite map_app, IH2.
  unfold analyze_file in Hsf. apply collect_forall2 in Hsf.
  assert (K : Forall2 (fun fm r =>
                         analyze_site isdecimal (rel_path (fst fm))
                                      (content (fst fm)) (snd fm) = Ok r
                         /\ file r = rel_path (fst fm)
                         /\ method r = site_method (snd fm))
                      (map (pair sf) (sites sf)) rs0
              /\ map (fun r => (file r, method r)) rs0
                 = map (fun m => (rel_path sf, site_method m)) (sites sf)).
  { clear IH1 IH2. induction Hsf as [|m r ms rs1 Hm _ [I1 I2]];
      [split; constructor|].
    destruct (analyze_site_fields _ _ _ _ Hm) as (Hme & Hfi & _).
    split.
    - cbn [map]. constructor; [cbn [fst snd]; auto|exact I1].
    - cbn [map]. rewrite I2, Hme, Hfi. reflexivity. }
  destruct K as [K1 K2]. split.
  - apply Forall2_app; assumption.
  - now rewrite K2.
Qed.

Lemma records_follow_matches_witness :
  exists rs,
    analyze_tree isword_ascii isdecimal_ascii [(lit "a.py", two_decorators)]
    = Ok rs
    /\ map (fun r => (method r, path r)) rs
       = [(lit "GET", lit "/a"); (lit "POST", lit "/b")]
    /\ map (fun r => (file r, method r)) rs
       = [(lit "a.py", lit "GET"); (lit "a.py", lit "POST")].
Proof.
  eexists. split; [reflexivity|]. split; [reflexivity|].
  apply (@records_follow_matches isdecimal_ascii
           [read_file isword_ascii (lit "a.py") two_decorators]).
  reflexivity.
Defined.

(** ** Scores, counts and advice *)

(** X12.  Supplying what a rule asks for raises the score of a route by
    exactly the penalty of that rule, whatever the other flags are: no
    improvement is hidden by the floor of 30. *)
Theorem each_fix_gains_its_penalty (r : route) :
  let v := versioned r in
  let rm := has_response_model r in
  let t := has_tags r in
  let s := has_summary r in
  let d := has_description r in
  score (score_route (set_flags true rm t s d r))
  = (score (score_route r) + (if v then 0 else 20))%Z
  /\ score (score_route (set_flags v true t s d r))
     = (score (score_route r) + (if rm then 0 else 25))%Z
  /\ score (score_route (set_flags v rm true s d r))
     = (score (score_route r) + (if t then 0 else 10))%Z
  /\ score (score_route (set_flags v rm t true d r))
     = (score (score_route r) + (if s then 0 else 10))%Z
  /\ score (score_route (set_flags v rm t s true r))
     = (score (score_route r) + (if d then 0 else 5))%Z.
Proof. by_flags r. Qed.

(** X13.  A route scores 100 exactly when it has no penalty, which is
    exactly when all five flags are true; otherwise its score is at most
    95. *)
Theorem perfect_iff_no_penalty (r : route) :
  (score (score_route r) = 100%Z <-> penalties (score_route r) = [])
  /\ (penalties (score_route r) = []
      <-> versioned r && has_response_model r && has_tags r
          && has_summary r && has_description r = true)
  /\ (score (score_route r) = 100 \/ score (score_route r) <= 95)%Z.
Proof.
  destruct r as [m p f v rm t s d a].
  destruct v, rm, t, s, d; vm_compute;
    (split; [split; intro; congruence|]);
    (split; [split; intro; congruence|]);
    (left; reflexivity) || (right; intro; discriminate).
Qed.

(** X14.  In the summary of a report, the perfect routes and the routes
    that need improvement add up to the routes analyzed. *)
Theorem report_counts_add_up (routes : list route) :
  (perfect_routes (map score_route routes)
   + needs_improvement (map score_route routes))%nat
  = List.length routes.
Proof.
  unfold perfect_routes, needs_improvement.
  induction routes as [|r routes IH]; [reflexivity|].
  cbn [map filter].
  pose proof (score_route_bounds r) as B.
  destruct (score (score_route r) =? 100)%Z eqn:E.
  - apply Z.eqb_eq in E.
    replace (score (score_route r) <? 100)%Z with false
      by (symmetry; apply Z.ltb_ge; lia).
    cbn [List.length]. lia.
  - apply Z.eqb_neq in E.
    replace (score (score_route r) <? 100)%Z with true
      by (symmetry; apply Z.ltb_lt; lia).
    cbn [List.length]. lia.
Qed.

Lemma advice_loop_spec (advise_route : scored_route -> str)
      (rs : list scored_route) :
  forall remaining,
    map advised (advice_loop advise_route rs remaining) = rs
    /\ map advised (filter has_advice (advice_loop advise_route rs remaining))
       = firstn (Z.to_nat remaining)
                (filter (fun r => (score r <? 100)%Z) rs)
    /\ Forall (fun x => advice x = None
                        \/ advice x = Some (advise_route (advised x)))
              (advice_loop advise_route rs remaining).
Proof.
  induction rs as [|r rs IH]; intro remaining.
  - cbn. rewrite firstn_nil. repeat split. constructor.
  - cbn [advice_loop filter].
    destruct (IH remaining) as (I1 & I2 & I3).
    destruct (IH (remaining - 1)%Z) as (J1 & J2 & J3).
    destruct (score r <? 100)%Z eqn:S; cbn [andb].
    + destruct (remaining >? 0)%Z eqn:R.
      * apply Z.gtb_lt in R.
        cbn [map filter has_advice advice advised].
        rewrite J1, J2.
        replace (Z.to_nat remaining) with (Datatypes.S (Z.to_nat (remaining - 1)))
          by lia.
        cbn [firstn]. repeat split. constructor; [now right|exact J3].
      * rewrite Z.gtb_ltb in R. apply Z.ltb_ge in R.
        cbn [map filter has_advice advice advised].
        rewrite I1, I2.
        replace (Z.to_nat remaining) with 0%nat by lia.
        cbn [firstn]. repeat split. constructor; [now left|exact I3].
    + cbn [map filter has_advice advice advised].
      rewrite I1, I2. repeat split. constructor; [now left|exact I3].
Qed.

(** X15.  The advice step keeps the routes and their order; the routes that
    get advice are the first [ai_limit] ones, in order, among those that
    score below 100, none when advice is disabled or the limit is not
    positive; a route that scores 100 never gets advice, and the advice of a
    route is the answer of the service for that route. *)
Theorem advice_goes_to_first_imperfect
        (advise_route : scored_route -> str) (no_ai has_client : bool)
        (ai_limit : Z) (rs : list scored_route) :
  let out := add_advice advise_route no_ai has_client ai_limit rs in
  map advised out = rs
  /\ map advised (filter has_advice out)
     = firstn (if negb no_ai && has_client then Z.to_nat ai_limit else 0%nat)
              (filter (fun r => (score r <? 100)%Z) rs)
  /\ Forall (fun x => advice x = None
                      \/ advice x = Some (advise_route (advised x))) out
  /\ Forall (fun x => has_advice x = true -> (score (advised x) < 100)%Z) out.
Proof.
  intro out.
  assert (H : map advised out = rs
              /\ map advised (filter has_advice out)
                 = firstn (if negb no_ai && has_client
                           then Z.to_nat ai_limit else 0%nat)
                          (filter (fun r => (score r <? 100)%Z) rs)
              /\ Forall (fun x => advice x = None
                                  \/ advice x = Some (advise_route (advised x)))
                        out).
  { unfold out, add_advice.
    destruct (negb no_ai && has_client); [apply advice_loop_spec|].
    cbn [firstn]. clear out.
    induction rs as [|r rs (I1 & I2 & I3)]; [repeat split; constructor|].
    cbn [map filter has_advice advice advised].
    rewrite I1, I2. repeat split. constructor; [now left|exact I3]. }
  destruct H as (H1 & H2 & H3). repeat split; auto.
  apply Forall_forall. intros x Hx Ha.
  assert (I : In (advised x) (map advised (filter has_advice out))).
  { apply in_map. apply filter_In. auto. }
  rewrite H2 in I.
  set (n := if negb no_ai && has_client then Z.to_nat ai_limit else 0%nat) in I.
  pose proof (firstn_skipn n (filter (fun r => (score r <? 100)%Z) rs)) as E.
  assert (I' : In (advised x) (filter (fun r => (score r <? 100)%Z) rs)).
  { rewrite <- E. apply in_or_app. now left. }
  apply filter_In in I' as [_ I']. now apply Z.ltb_lt.
Qed.

(** ** Decorators the pattern leaves out *)

Lemma verbs_lowercase (verb : string) :
  In verb VERBS ->
  Forall (fun a => (97 <= N_of_ascii a <= 122)%N) (list_ascii_of_string verb).
Proof.
  unfold VERBS. cbn [In]. intro H.
  repeat (destruct H as [<-|H];
          [repeat constructor; cbv; intro; discriminate|]).
  contradiction.
Qed.

Lemma ci_not_dot (a : ascii) :
  (97 <= N_of_ascii a <= 122)%N -> ci a dot = false.
Proof.
  intro Ha. unfold ci, dot. cbv zeta.
  destruct (ci a 46%N) eqn:E; [|exact E]. exfalso.
  unfold ci in E. cbv zeta in E.
  rewrite ?orb_true_iff, ?andb_true_iff, ?N.eqb_eq in E.
  destruct E as [[[E|E]|[_ E]]|[_ E]]; try lia; vm_compute in E; discriminate.
Qed.

Lemma verb_then_call_not_dotted (isword : char -> bool)
      (l : list ascii) (v : str) :
  isword dot = false ->
  Forall (fun a => (97 <= N_of_ascii a <= 122)%N) l ->
  Forall2 (fun a c => ci a c = true) l v ->
  forall (h : char) (tail w2 rest : str),
    isword h = false -> h <> dot ->
    forallb isword w2 = true ->
    v ++ h :: tail = w2 ++ dot :: rest -> False.
Proof.
  intros Hdot Hl H. induction H as [|a c l v Hc _ IH];
    intros h tail w2 rest Hh Hhd Hw E.
  - destruct w2 as [|x w2]; cbn [app] in E; injection E as -> _.
    + contradiction.
    + cbn [forallb] in Hw. apply andb_prop in Hw as [Hw _]. congruence.
  - inversion Hl as [|? ? Ha Hl']; subst.
    destruct w2 as [|x w2]; cbn [app] in E; injection E as -> E.
    + rewrite (@ci_not_dot a Ha) in Hc. discriminate.
    + cbn [forallb] in Hw. apply andb_prop in Hw as [_ Hw].
      exact (IH Hl' h tail w2 rest Hh Hhd Hw E).
Qed.

(** X16.  A decorator on a router reached through an attribute, that is
    with a second dotted name before the verb, is not matched at its at
    sign, whatever follows. *)
Theorem dotted_router_not_matched
        (isword : char -> bool) (w1 w2 rest : str)
        (Hdot : isword dot = false)
        (Hpar : isword lparen = false)
        (Hsp : forall c, isspace c = true -> isword c = false)
        (H1 : forallb isword w1 = true)
        (H2 : forallb isword w2 = true) :
  route_match isword (at_sign :: w1 ++ dot :: w2 ++ dot :: rest) = None.
Proof.
  destruct (route_match isword _) as [[v n]|] eqn:M; [exfalso|reflexivity].
  apply route_match_sound in M as (w & ws & rest0 & D & _).
  destruct D as (E & _ & Hw & (verb & Hverb & Hv) & Hws).
  injection E as E. symmetry in E.
  apply (span_unique isword) in E as (_ & _ & E); auto.
  destruct ws as [|h ws].
  - cbn [app] in E.
    apply (@verb_then_call_not_dotted isword _ _ Hdot
             (@verbs_lowercase verb Hverb) Hv lparen rest0 w2 rest);
      [exact Hpar|discriminate|exact H2|exact E].
  - cbn [app] in E. unfold spaces in Hws. cbn [forallb] in Hws.
    apply andb_prop in Hws as [Hh _].
    apply (@verb_then_call_not_dotted isword _ _ Hdot
             (@verbs_lowercase verb Hverb) Hv h (ws ++ lparen :: rest0) w2 rest);
      [now apply Hsp|intros ->; discriminate|exact H2|exact E].
Qed.

Lemma space_not_word_ascii (c : N) :
  isspace c = true -> isword_ascii c = false.
Proof.
  intro H. destruct (isword_ascii c) eqn:W; [exfalso|reflexivity].
  assert (R : (48 <= c <= 122)%N).
  { unfold isword_ascii in W.
    repeat match type of W with
           | context [(?a <=? ?b)%N] => destruct (N.leb_spec a b)
           | context [(?a =? ?b)%N] => destruct (N.eqb_spec a b)
           end; cbn in W; try discriminate; lia. }
  unfold isspace in H.
  repeat match type of H with
         | context [(?a <=? ?b)%N] => destruct (N.leb_spec a b); try lia
         | context [(?a =? ?b)%N] => destruct (N.eqb_spec a b); try lia
         end.
  all: cbn in H; discriminate.
Qed.

Lemma dotted_router_not_matched_witness :
  route_match isword_ascii
    (at_sign :: lit "api" ++ dot :: lit "router" ++ dot
             :: lit "get(" ++ quoted "/x" ++ [rparen])
  = None
  /\ find_sites isword_ascii
       (at_sign :: lit "api" ++ dot :: lit "router" ++ dot
                :: lit "get(" ++ quoted "/x" ++ [rparen])
     = [].
Proof.
  split; [|reflexivity].
  apply (@dotted_router_not_matched isword_ascii (lit "api") (lit "router"));
    try reflexivity.
  exact space_not_word_ascii.
Defined.

(** ** Empty path literals, whatever comes before *)

Lemma kwarg_literal_at_offset (keyword a v : str) :
  kwarg_literal keyword a v ->
  exists k, kwarg_literal_here keyword (skipn k a) v.
Proof.
  intros (pre & w1 & w2 & q1 & q2 & post & -> & H).
  exists (List.length pre).
  rewrite skipn_app, skipn_all, Nat.sub_diag. cbn [skipn app].
  exists w1, w2, q1, q2, post. split; [reflexivity|exact H].
Qed.

Lemma no_literal_at_empty_path (w1 w2 : str) (q1 q2 : char) (rest v : str) :
  spaces w1 -> spaces w2 -> isquote q1 = true -> isquote q2 = true ->
  kwarg_literal_here (lit "path")
                     (lit "path" ++ w1 ++ equals :: w2 ++ q1 :: q2 :: rest) v ->
  False.
Proof.
  intros H1 H2 Hq1 Hq2
         (w1' & w2' & q1' & q2' & post & E & H1' & H2' & Hq1' & Hq2' & Hv).
  apply app_inv_head in E.
  apply (span_unique isspace) in E as (_ & _ & E); auto.
  apply (span_unique isspace) in E as (_ & _ & E);
    auto using quote_not_space.
  exact (no_body_after_quote _ Hq2 Hv E).
Qed.

Lemma no_bare_literal_at_empty (w : str) (q1 q2 : char) (rest v : str) :
  spaces w -> isquote q1 = true -> isquote q2 = true ->
  bare_literal (w ++ q1 :: q2 :: rest) v -> False.
Proof.
  intros Hw Hq1 Hq2 (w' & q1' & q2' & post & E & Hw' & Hq1' & Hq2' & Hv).
  apply (span_unique isspace) in E as (_ & _ & E);
    auto using quote_not_space.
  exact (no_body_after_quote _ Hq2 Hv E).
Qed.

(** C10, as the code has it.  An empty quoted string gives no path, since
    both patterns ask for at least one character between the quotes.  An
    argument text with an empty literal after a path keyword (blanks
    allowed around the equals sign), whatever comes before it, resolves to
    the sentinel UNKNOWN with a false versioning flag, as long as no
    assignment of a non-empty quoted literal to path starts at another
    offset of the text and the text does not start with a non-empty quoted
    literal; an argument text that starts with an empty quoted literal does
    so as long as it holds no assignment of a non-empty quoted literal to
    path. *)
Theorem empty_path_literal_unknown
        (isdecimal : char -> bool) (pre w1 w2 w : str) (q1 q2 : char)
        (rest rest' : str)
        (Hw1 : spaces w1) (Hw2 : spaces w2) (Hw : spaces w)
        (Hq1 : isquote q1 = true) (Hq2 : isquote q2 = true)
        (Hother : forall k, k <> List.length pre ->
                    ~ (exists v, kwarg_literal_here (lit "path")
                                   (skipn k (pre ++ lit "path" ++ w1 ++ equals
                                                 :: w2 ++ q1 :: q2 :: rest)) v))
        (Hlead : ~ (exists v, bare_literal
                                (pre ++ lit "path" ++ w1 ++ equals
                                     :: w2 ++ q1 :: q2 :: rest) v))
        (Hkw : ~ (exists v, kwarg_literal (lit "path")
                              (w ++ q1 :: q2 :: rest') v)) :
  let keyword_form :=
    pre ++ lit "path" ++ w1 ++ equals :: w2 ++ q1 :: q2 :: rest in
  let bare_form := w ++ q1 :: q2 :: rest' in
  resolve_path keyword_form = lit "UNKNOWN"
  /\ has_version isdecimal (resolve_path keyword_form) = false
  /\ resolve_path bare_form = lit "UNKNOWN"
  /\ has_version isdecimal (resolve_path bare_form) = false.
Proof.
  intros keyword_form bare_form.
  assert (K : resolve_path keyword_form = lit "UNKNOWN").
  { apply resolve_path_cases; [|exact Hlead].
    intros [v Hv]. apply kwarg_literal_at_offset in Hv as [k Hk].
    destruct (Nat.eq_dec k (List.length pre)) as [->|Hne].
    - unfold keyword_form in Hk.
      rewrite skipn_app, skipn_all, Nat.sub_diag in Hk. cbn [skipn app] in Hk.
      exact (@no_literal_at_empty_path w1 w2 q1 q2 rest v Hw1 Hw2 Hq1 Hq2 Hk).
    - apply (Hother k Hne). eauto. }
  assert (B : resolve_path bare_form = lit "UNKNOWN").
  { apply resolve_path_cases; [exact Hkw|].
    intros [v Hv].
    exact (@no_bare_literal_at_empty w q1 q2 rest' v Hw Hq1 Hq2 Hv). }
  rewrite K, B. repeat split.
Qed.

Lemma empty_path_literal_unknown_witness :
  resolve_path tags_then_empty_path = lit "UNKNOWN"
  /\ has_version isdecimal_ascii (resolve_path tags_then_empty_path) = false
  /\ resolve_path (dquote :: dquote :: lit ", tags=[]") = lit "UNKNOWN"
  /\ has_version isdecimal_ascii
       (resolve_path (dquote :: dquote :: lit ", tags=[]")) = false.
Proof.
  apply (@empty_path_literal_unknown isdecimal_ascii
           (lit "tags=[" ++ quoted "a" ++ lit "], ") [] [] [] dquote dquote
           [] (lit ", tags=[]")); try reflexivity.
  - intros k _ [v Hv]. apply kwarg_here_complete in Hv. apply Hv.
    do 20 (destruct k as [|k]; [reflexivity|]). reflexivity.
  - intros [v Hv]. apply bare_match_complete in Hv. apply Hv. reflexivity.
  - intros [v Hv]. apply kwarg_search_complete in Hv. apply Hv. reflexivity.
Defined.

(** C10, counterexample.  The path argument is an empty literal and yet the
    record has another path: a later description quotes a path assignment,
    which the keyword search finds, after a path keyword as after a leading
    empty literal; or the text starts with a quoted literal, which the
    fallback takes. *)
Lemma empty_path_not_always_unknown :
  (empty_path_decl = lit "@app.get(" ++ empty_path_args ++ [rparen]
   /\ exists rest,
       empty_path_args = lit "path=" ++ dquote :: dquote :: rest
       /\ exists r,
           analyze_site isdecimal_ascii (lit "main.py") empty_path_decl GET_site
           = Ok r
           /\ decorator_args r = empty_path_args
           /\ path r = lit "/v1/x"
           /\ path r <> lit "UNKNOWN"
           /\ versioned r = true)
  /\ (leading_then_empty_path
      = (quoted "/x" ++ lit ", ") ++ lit "path=" ++ [dquote; dquote]
      /\ exists r,
          analyze_site isdecimal_ascii (lit "main.py") leading_then_empty_decl
                       GET_site = Ok r
          /\ decorator_args r = leading_then_empty_path
          /\ path r = lit "/x"
          /\ path r <> lit "UNKNOWN")
  /\ (exists rest,
        empty_leading_args = dquote :: dquote :: rest
        /\ exists r,
            analyze_site isdecimal_ascii (lit "main.py") empty_leading_decl
                         GET_site = Ok r
            /\ decorator_args r = empty_leading_args
            /\ path r = lit "/v1/x"
            /\ path r <> lit "UNKNOWN"
            /\ versioned r = true).
Proof.
  split; [|split].
  - split; [reflexivity|].
    eexists. split; [reflexivity|].
    eexists. split; [reflexivity|].
    repeat split. discriminate.
  - split; [reflexivity|].
    eexists. split; [reflexivity|].
    repeat split. discriminate.
  - eexists. split; [reflexivity|].
    eexists. split; [reflexivity|].
    repeat split. discriminate.
Qed.

(** ** The aggregate score *)

Lemma div_half_even_near (a b : Z) :
  (0 <= a)%Z -> (0 < b)%Z ->
  (2 * Z.abs (div_half_even a b * b - a) <= b)%Z.
Proof.
  intros Ha Hb. unfold div_half_even.
  pose proof (Z.div_mod a b ltac:(lia)) as E.
  pose proof (Z.mod_pos_bound a b Hb) as R.
  destruct (2 * (a mod b) <? b)%Z eqn:H1; [apply Z.ltb_lt in H1; lia|].
  apply Z.ltb_ge in H1.
  destruct (b <? 2 * (a mod b))%Z eqn:H2; [apply Z.ltb_lt in H2; lia|].
  apply Z.ltb_ge in H2.
  destruct (Z.even (a / b)); lia.
Qed.

Lemma positive_factor (m n : Z) : (0 < n)%Z -> (0 < m * n)%Z -> (0 < m)%Z.
Proof.
  intros Hn H. destruct (Z_le_gt_dec m 0) as [Hm|Hm]; [|lia].
  pose proof (Z.mul_nonpos_nonneg m n Hm ltac:(lia)). lia.
Qed.

(** The quotient of operands that [score_route] can give: the binary64
    number nearest to it, with the weight of its last bit. *)
Lemma true_divide_mean (S n : Z) :
  (0 < n)%Z -> (30 * n <= S <= 100 * n)%Z ->
  exists m ex,
    true_divide S n = Some {| mant := m; expo := ex |}
    /\ (ex <= -46)%Z /\ (0 < m)%Z
    /\ (2 * Z.abs (m * n - S * 2 ^ (- ex)) <= n)%Z.
Proof.
  intros Hn HS. unfold true_divide.
  replace (n =? 0)%Z with false by (symmetry; apply Z.eqb_neq; lia).
  replace (S =? 0)%Z with false by (symmetry; apply Z.eqb_neq; lia).
  cbv zeta.
  assert (He0 : (0 <= Z.log2 S - Z.log2 n <= 7)%Z).
  { pose proof (Z.log2_le_mono n S ltac:(lia)).
    pose proof (Z.log2_le_mono S (n * 2 ^ 7) ltac:(lia)) as H7.
    rewrite Z.log2_mul_pow2 in H7 by lia. lia. }
  set (e0 := (Z.log2 S - Z.log2 n)%Z) in *.
  replace (0 <=? e0)%Z with true by (symmetry; apply Z.leb_le; lia).
  set (e := if (S <? n * 2 ^ e0)%Z then (e0 - 1)%Z else e0).
  assert (He : (-1 <= e <= 6)%Z).
  { unfold e. destruct (S <? n * 2 ^ e0)%Z eqn:B; [lia|].
    apply Z.ltb_ge in B.
    destruct (Z.eq_dec e0 7) as [E7|]; [|lia].
    rewrite E7 in B. change (2 ^ 7)%Z with 128%Z in B. lia. }
  clearbody e. clear e0 He0.
  replace (Z.max e (-1022))%Z with e by lia.
  replace (0 <=? e - 52)%Z with false by (symmetry; apply Z.leb_gt; lia).
  set (D := (2 ^ (- (e - 52)))%Z).
  assert (HD : (2 ^ 46 <= D)%Z)
    by (unfold D; apply Z.pow_le_mono_r; lia).
  change (2 ^ 46)%Z with 70368744177664%Z in HD.
  pose proof (@div_half_even_near (S * D) n ltac:(nia) Hn) as Hm.
  set (m := div_half_even (S * D) n) in *.
  assert (Hmn : (0 < m * n)%Z) by nia.
  pose proof (@positive_factor m n Hn Hmn) as Hpos.
  destruct (m =? 2 ^ 53)%Z eqn:C.
  - apply Z.eqb_eq in C.
    assert (He5 : (e <= 5)%Z).
    { destruct (Z.eq_dec e 6) as [E6|]; [|lia]. exfalso.
      unfold D in Hm. rewrite E6 in Hm.
      change (2 ^ (- (6 - 52)))%Z with 70368744177664%Z in Hm.
      rewrite C in Hm. change (2 ^ 53)%Z with 9007199254740992%Z in Hm. lia. }
    replace (971 <? e - 52 + 1)%Z with false by (symmetry; apply Z.ltb_ge; lia).
    change (2 ^ 52 =? 0)%Z with false. cbv iota.
    exists (2 ^ 52)%Z, (e - 52 + 1)%Z.
    split; [reflexivity|]. split; [lia|]. split; [reflexivity|].
    assert (ED : D = (2 * 2 ^ (- (e - 52 + 1)))%Z).
    { unfold D. rewrite <- Z.pow_succ_r by lia. f_equal. lia. }
    rewrite C, ED in Hm.
    change (2 ^ 53)%Z with (2 * 2 ^ 52)%Z in Hm. lia.
  - replace (971 <? e - 52)%Z with false by (symmetry; apply Z.ltb_ge; lia).
    replace (m =? 0)%Z with false by (symmetry; apply Z.eqb_neq; lia).
    exists m, (e - 52)%Z.
    split; [reflexivity|]. split; [lia|]. split; [exact Hpos|exact Hm].
Qed.

(** Rounding the nearest double to tenths gives a tenth nearest to the
    quotient itself, unless the divisor comes near the weight of the last
    bit. *)
Lemma tenth_of_nearest_double (S n m D t : Z) :
  (0 < n)%Z -> (10 * n < D)%Z ->
  (2 * Z.abs (m * n - S * D) <= n)%Z ->
  (2 * Z.abs (t * D - 10 * m) <= D)%Z ->
  (2 * Z.abs (t * n - 10 * S) <= n)%Z.
Proof.
  intros Hn HD HA HB.
  assert (I : (D * (t * n - 10 * S)
               = n * (t * D - 10 * m) + 10 * (m * n - S * D))%Z) by ring.
  set (X := (t * n - 10 * S)%Z) in *.
  set (A := (m * n - S * D)%Z) in *.
  set (B := (t * D - 10 * m)%Z) in *.
  assert (HnB : (- (n * D) <= n * (2 * B) <= n * D)%Z).
  { split.
    - replace (- (n * D))%Z with (n * (- D))%Z by ring.
      apply Z.mul_le_mono_nonneg_l; lia.
    - apply Z.mul_le_mono_nonneg_l; lia. }
  destruct (Z_le_gt_dec (2 * Z.abs X) n) as [|Hgt]; [assumption|exfalso].
  assert (HX : (D * (n + 1) <= D * (2 * Z.abs X))%Z)
    by (apply Z.mul_le_mono_nonneg_l; lia).
  assert (HDX : (D * (2 * Z.abs X) = 2 * Z.abs (D * X))%Z).
  { rewrite Z.abs_mul, (Z.abs_eq D) by lia. ring. }
  rewrite HDX, I in HX. lia.
Qed.

Lemma tenths_in_range (S n t : Z) :
  (0 < n)%Z -> (30 * n <= S <= 100 * n)%Z -> nearest_tenth S n t ->
  (300 <= t <= 1000)%Z.
Proof.
  unfold nearest_tenth. intros Hn HS Ht. split.
  - destruct (Z_le_gt_dec 300 t) as [|Hlt]; [assumption|exfalso].
    pose proof (Z.mul_le_mono_nonneg_r t 299 n ltac:(lia) ltac:(lia)). lia.
  - destruct (Z_le_gt_dec t 1000) as [|Hgt]; [assumption|exfalso].
    pose proof (Z.mul_le_mono_nonneg_r 1001 t n ltac:(lia) ltac:(lia)). lia.
Qed.

Lemma sum_scores_bounds (routes : list route) :
  (30 * Z.of_nat (List.length routes)
   <= fold_right Z.add 0 (map score (map score_route routes))
   <= 100 * Z.of_nat (List.length routes))%Z.
Proof.
  induction routes as [|r routes IH]; [simpl; lia|].
  cbn [map fold_right List.length].
  pose proof (score_route_bounds r). lia.
Qed.

(** C8, as the code has it.  With no route the command exits with the code
    3 before any score is computed, and the mean of no score is no number
    (ZeroDivisionError).  Over a non-empty sequence of at most 7 * 10^12
    routes the aggregate is the binary64 number nearest to [t / 10], where
    [t / 10] is a tenth nearest to the arithmetic mean of the scores, that
    is within 0.05 of it, and lies between 30.0 and 100.0: the mean is
    first rounded to the nearest binary64 number, and that number to the
    nearest tenth. *)
Theorem repo_score_nearest_tenth
        (routes : list route)
        (Hne : routes <> [])
        (Hlen : (Z.of_nat (List.length routes) <= 7 * 10 ^ 12)%Z) :
  let scored := map score_route routes in
  let total := fold_right Z.add 0%Z (map score scored) in
  let count := Z.of_nat (List.length routes) in
  analyze_command true [] = Exit EXIT_INTERNAL_ERROR
  /\ command_score true [] = inl 3%Z
  /\ repo_score [] = None
  /\ analyze_command true routes = Averaging scored total count
  /\ command_score true routes = inr (repo_score scored)
  /\ exists x t r,
      mean_float scored = Some x
      /\ (expo x < 0)%Z
      /\ (2 * Z.abs (mant x * count - total * 2 ^ (- expo x)) <= count)%Z
      /\ tenths x = t
      /\ nearest_tenth total count t
      /\ (300 <= t <= 1000)%Z
      /\ true_divide t 10 = Some r
      /\ repo_score scored = Some r.
Proof.
  intros scored total count.
  split; [reflexivity|]. split; [reflexivity|]. split; [reflexivity|].
  assert (Hcount : (0 < count)%Z).
  { unfold count. destruct routes; [contradiction|]. cbn [List.length]. lia. }
  assert (Hst : analyze_command true routes = Averaging scored total count).
  { unfold analyze_command. cbn [negb].
    destruct routes as [|r0 routes']; [contradiction|].
    fold scored. unfold total, count, scored. now rewrite length_map. }
  split; [exact Hst|].
  split; [unfold command_score; now rewrite Hst|].
  pose proof (sum_scores_bounds routes) as HS. fold scored total count in HS.
  destruct (@true_divide_mean total count Hcount HS)
    as (m & ex & Hx & Hex & Hm & Hnear).
  assert (Hmean : mean_float scored = Some {| mant := m; expo := ex |}).
  { unfold mean_float. unfold scored at 2. rewrite length_map. exact Hx. }
  set (t := tenths {| mant := m; expo := ex |}).
  assert (Ht : nearest_tenth total count t).
  { unfold nearest_tenth.
    apply (@tenth_of_nearest_double total count m (2 ^ (- ex)) t);
      [exact Hcount| |exact Hnear|].
    - assert (2 ^ 46 <= 2 ^ (- ex))%Z by (apply Z.pow_le_mono_r; lia).
      change (2 ^ 46)%Z with 70368744177664%Z in *.
      change (7 * 10 ^ 12)%Z with 7000000000000%Z in Hlen.
      fold count in Hlen. lia.
    - unfold t, tenths. cbn [expo mant].
      replace (0 <=? ex)%Z with false by (symmetry; apply Z.leb_gt; lia).
      apply div_half_even_near; [lia|].
      apply Z.pow_pos_nonneg; lia. }
  pose proof (@tenths_in_range total count t Hcount HS Ht) as Hrange.
  destruct (@true_divide_mean t 10 ltac:(lia) ltac:(lia))
    as (m' & ex' & Hr & _).
  exists {| mant := m; expo := ex |}, t, {| mant := m'; expo := ex' |}.
  split; [exact Hmean|]. cbn [expo mant].
  split; [lia|]. split; [exact Hnear|]. split; [reflexivity|].
  split; [exact Ht|]. split; [exact Hrange|]. split; [exact Hr|].
  unfold repo_score. rewrite Hmean. unfold round1. fold t. exact Hr.
Qed.

Lemma repo_score_nearest_tenth_witness :
  repo_score (map score_route four_routes) = true_divide 562 10
  /\ (exists r, true_divide 562 10 = Some r)
  /\ nearest_tenth 225 4 562.
Proof.
  destruct (@repo_score_nearest_tenth four_routes ltac:(discriminate)
              ltac:(vm_compute; discriminate))
    as (_ & _ & _ & _ & _ & x & t & r & Hx & _ & _ & Ht & Hn & _ & Hr & Hs).
  assert (Ex : Some x = mean_float (map score_route four_routes))
    by (symmetry; exact Hx).
  vm_compute in Ex. injection Ex as ->.
  vm_compute in Ht. subst t.
  split; [|split].
  - rewrite Hs, Hr. reflexivity.
  - exists r. exact Hr.
  - exact Hn.
Defined.

Lemma sum_scores_app (l1 l2 : list route) :
  fold_right Z.add 0%Z (map score (map score_route (l1 ++ l2)))
  = (fold_right Z.add 0 (map score (map score_route l1))
     + fold_right Z.add 0 (map score (map score_route l2)))%Z.
Proof.
  induction l1 as [|r l1 IH]; [reflexivity|].
  cbn [app map fold_right]. rewrite IH. lia.
Qed.

Lemma sum_scores_repeat (r : route) (k : nat) :
  fold_right Z.add 0%Z (map score (map score_route (repeat r k)))
  = (Z.of_nat k * score (score_route r))%Z.
Proof.
  induction k as [|k IH]; [reflexivity|].
  cbn [repeat map fold_right]. rewrite IH. lia.
Qed.

(** The division agrees with the binary64 division of the Standard
    Library on operands that are binary64 numbers themselves. *)
Example true_divide_is_binary64_division :
  Forall (fun ab => option_map to_spec (true_divide (fst ab) (snd ab))
                    = Some (spec_divide (fst ab) (snd ab)))
         [ (225, 4); (3005, 100); (7235, 100); (115, 2); (562, 10);
           (301, 10); (640, 10); (1, 3); (100, 7); (1000, 10); (300, 10);
           (751186344100940, 11728124029679) ]%Z.
Proof. repeat constructor. Qed.

(** C8, counterexample.  The aggregate is not the mean rounded to one
    decimal place by a rule on the mean itself.  At a mean halfway between
    two tenths it follows neither the rounding of halves upwards (56.25
    gives 56.2) nor the rounding of halves to the even tenth (30.05 gives
    30.1); and with some 10^13 routes, whose mean lies just above 64.05, it
    is 64.0, when 64.1 is the only nearest tenth. *)
Lemma repo_score_not_plain_rounding :
  (fold_right Z.add 0%Z (map score (map score_route four_routes)) = 225%Z
   /\ List.length four_routes = 4%nat
   /\ option_map tenths (mean_float (map score_route four_routes)) = Some 562%Z
   /\ repo_score (map score_route four_routes) = true_divide 562 10
   /\ div_half_up (10 * 225) 4 = 563%Z)
  /\ (fold_right Z.add 0%Z (map score (map score_route hundred_routes))
      = 3005%Z
      /\ List.length hundred_routes = 100%nat
      /\ option_map tenths (mean_float (map score_route hundred_routes))
         = Some 301%Z
      /\ repo_score (map score_route hundred_routes) = true_divide 301 10
      /\ div_half_even (10 * 3005) 100 = 300%Z)
  /\ (fold_right Z.add 0%Z (map score (map score_route many_routes))
      = 751186344100940%Z
      /\ Z.of_nat (List.length many_routes) = 11728124029679%Z
      /\ option_map tenths (mean_float (map score_route many_routes))
         = Some 640%Z
      /\ repo_score (map score_route many_routes) = true_divide 640 10
      /\ ~ nearest_tenth 751186344100940 11728124029679 640
      /\ nearest_tenth 751186344100940 11728124029679 641).
Proof.
  split; [repeat split; vm_compute; reflexivity|].
  split; [repeat split; vm_compute; reflexivity|].
  assert (Hsum : fold_right Z.add 0%Z (map score (map score_route many_routes))
                 = 751186344100940%Z).
  { unfold many_routes. rewrite sum_scores_app, !sum_scores_repeat.
    rewrite !Z2Nat.id by (vm_compute; discriminate).
    vm_compute. reflexivity. }
  assert (Hlen : Z.of_nat (List.length many_routes) = 11728124029679%Z).
  { unfold many_routes. rewrite length_app, !repeat_length, Nat2Z.inj_add.
    rewrite !Z2Nat.id by (vm_compute; discriminate).
    vm_compute. reflexivity. }
  split; [exact Hsum|]. split; [exact Hlen|].
  split.
  { unfold mean_float. rewrite length_map, Hsum, Hlen.
    vm_compute. reflexivity. }
  split.
  { unfold repo_score, mean_float. rewrite length_map, Hsum, Hlen.
    vm_compute. reflexivity. }
  split; unfold nearest_tenth; vm_compute; [intro H; apply H|intro H];
    reflexivity || discriminate.
Qed.
